(** * PageRank (pagerank.py): a shallow embedding and its verification

    The development follows [src/pagerank.py]: the transition model, the
    sampling estimator and the iterative estimator.

    Numbers.  Python's [float] values are modelled by the rationals [Qc]
    (canonical fractions, Leibniz equality): arithmetic is exact and rounding
    is out of the model.  Integers occurring in the code ([len], the visit
    counters, the sample count) are [nat] or [Z] and are injected into [Qc]
    where the code mixes them with floats.  Theorems about rank values
    therefore hold of the program up to rounding, and they are meant for
    damping factors in [0,1]: outside it the floating-point computation can
    overflow or cancel to zero, which the model does not show.  The module
    [Binary64] restates the loop of [iterate_pagerank] on the binary64
    numbers Python computes with, to show where rounding changes the
    behaviour of the loop itself: with a damping factor within a rounding
    unit of 1.

    Dictionaries.  A Python [dict] keeps its keys in insertion order and the
    code iterates over them, so a dictionary is an association list whose
    keys are pairwise distinct.  Link sets are Python [set]s, of which the
    code only uses truthiness, [len] and [in]: they are [gset]s.

    Exceptions and loops.  Every operation that can raise in Python ([d[k]],
    [/], [random.choice], [random.choices]) returns in the [result] monad;
    the unbounded [while] loop of [iterate_pagerank] takes fuel. *)

From Stdlib Require Import QArith Qcanon Qcabs Qround Lqa Lia Floats.
From stdpp Require Import base numbers list gmap strings pretty sorting.

Local Open Scope Qc_scope.

(** ** Exceptions *)

Inductive exn : Type :=
  | KeyError
  | ZeroDivisionError
  | IndexError
  | ValueError.

Inductive result (A : Type) : Type :=
  | Ret (a : A)
  | Raise (e : exn)
  | OutOfFuel.

Arguments Ret {A} a.
Arguments Raise {A} e.
Arguments OutOfFuel {A}.

#[global] Instance result_ret : MRet result := @Ret.
#[global] Instance result_bind : MBind result := λ A B f m,
  match m with
  | Ret a => f a
  | Raise e => Raise e
  | OutOfFuel => OutOfFuel
  end.

(** [for x in l: acc = f acc x], stopping at the first exception. *)
Fixpoint foldM {A B : Type} (f : B → A → result B) (b : B) (l : list A)
  : result B :=
  match l with
  | [] => Ret b
  | x :: l' => b' ← f b x; foldM f b' l'
  end.

(** ** Numbers *)

Definition of_nat (n : nat) : Qc := Qc_of_Z (Z.of_nat n).

(** Python's [x / y] on numbers. *)
Definition truediv (x y : Qc) : result Qc :=
  if decide (y = 0) then Raise ZeroDivisionError else Ret (x / y).

(** [sum(values)]: Python adds from the left, starting at [0]. *)
Definition py_sum (l : list Qc) : Qc := fold_left Qcplus l 0.

Definition threshold : Qc := Q2Qc (1 # 1000).

(** ** Dictionaries in insertion order *)

Section Dict.
Context {K : Type} `{!EqDecision K} {V : Type}.

(** [d[k]] *)
Fixpoint dict_get (k : K) (d : list (K * V)) : result V :=
  match d with
  | [] => Raise KeyError
  | (k', v) :: d' => if decide (k = k') then Ret v else dict_get k d'
  end.

(** [d[k] = v]: an existing key keeps its position, a new key goes last. *)
Fixpoint dict_set (k : K) (v : V) (d : list (K * V)) : list (K * V) :=
  match d with
  | [] => [(k, v)]
  | (k', v') :: d' =>
      if decide (k = k') then (k, v) :: d' else (k', v') :: dict_set k v d'
  end.

(** [{k: f(k) for k in keys}] *)
Definition dict_comp (f : K → result V) (keys : list K)
  : result (list (K * V)) :=
  foldM (λ acc k, v ← f k; Ret (dict_set k v acc)) [] keys.
End Dict.

(** ** The program *)

Section PageRank.
Context {Page : Type} `{!EqDecision Page, !Countable Page}.

(** A corpus maps each page to the set of pages it links to. *)
#[local] Abbreviation corpus_t := (list (Page * gset Page)).
#[local] Abbreviation ranks_t := (list (Page * Qc)).

(** [transition_model(corpus, page, damping_factor)], lines 51-75. *)
Definition transition_model (corpus : corpus_t) (page : Page)
    (damping_factor : Qc) : result ranks_t :=
  let pages := corpus.*1 in
  let n_pages := length pages in
  links ← dict_get page corpus;
  if decide (links ≠ ∅) then
    foldM (λ distribution p,
      base ← truediv (1 - damping_factor) (of_nat n_pages);
      let distribution := dict_set p base distribution in
      if decide (p ∈ links) then
        old ← dict_get p distribution;
        extra ← truediv damping_factor (of_nat (size links));
        Ret (dict_set p (old + extra) distribution)
      else Ret distribution) [] pages
  else
    foldM (λ distribution p,
      v ← truediv 1 (of_nat n_pages);
      Ret (dict_set p v distribution)) [] pages.

(** The inner loop of a sweep, lines 126-131: the rank flowing into
    [page] from every [possible_page]. *)
Definition incoming (corpus : corpus_t) (pagerank : ranks_t) (page : Page)
  : result Qc :=
  foldM (λ total possible_page,
    l ← dict_get possible_page corpus;
    let links : gset Page :=
      if decide (l ≠ ∅) then l else list_to_set corpus.*1 in
    if decide (page ∈ links) then
      r ← dict_get possible_page pagerank;
      q ← truediv r (of_nat (size links));
      Ret (total + q)
    else Ret total) 0 corpus.*1.

(** One pass of the body of the [while] loop, lines 123-136: the new rank
    mapping and the convergence flag. *)
Definition sweep (corpus : corpus_t) (damping_factor : Qc) (N : nat)
    (pagerank : ranks_t) : result (ranks_t * bool) :=
  foldM (λ '(new_pagerank, convergence) page,
    total ← incoming corpus pagerank page;
    base ← truediv (1 - damping_factor) (of_nat N);
    let new_rank := base + damping_factor * total in
    let new_pagerank := dict_set page new_rank new_pagerank in
    new ← dict_get page new_pagerank;
    old ← dict_get page pagerank;
    if decide (threshold < Qcabs (new - old))
    then Ret (new_pagerank, false)
    else Ret (new_pagerank, convergence)) ([], true) corpus.*1.

(** [while not convergence], lines 122-136. *)
Fixpoint while_not_convergence (fuel : nat) (corpus : corpus_t)
    (damping_factor : Qc) (N : nat) (pagerank : ranks_t) : result ranks_t :=
  match fuel with
  | O => OutOfFuel
  | S fuel' =>
      '(new_pagerank, convergence) ← sweep corpus damping_factor N pagerank;
      if convergence : bool then Ret new_pagerank
      else while_not_convergence fuel' corpus damping_factor N new_pagerank
  end.

(** Lines 138-141: divide every rank by the sum of the ranks. *)
Definition normalize (pagerank : ranks_t) : result ranks_t :=
  let total_rank := py_sum pagerank.*2 in
  foldM (λ acc '(page, rank),
    v ← truediv rank total_rank;
    Ret (dict_set page v acc)) [] pagerank.

(** The loop and the normalisation, started from a given rank mapping. *)
Definition iterate_from (fuel : nat) (corpus : corpus_t)
    (damping_factor : Qc) (pagerank : ranks_t) : result ranks_t :=
  pagerank ←
    while_not_convergence fuel corpus damping_factor (length corpus) pagerank;
  normalize pagerank.

(** [iterate_pagerank(corpus, damping_factor)], lines 108-141. *)
Definition iterate_pagerank (fuel : nat) (corpus : corpus_t)
    (damping_factor : Qc) : result ranks_t :=
  let N := length corpus in
  pagerank ← dict_comp (λ _, truediv 1 (of_nat N)) corpus.*1;
  iterate_from fuel corpus damping_factor pagerank.

End PageRank.

(** ** The [random] module

    [random.choice] and [random.choices] belong to Python's library, not to
    this repository.  A generator state [G] provides the two primitives the
    library builds on: [randbelow g n], an integer below [n], and [random g],
    the next uniform draw.  [choice] and [choices] follow the library: an
    index below [len(seq)]; and, for weights, the cumulative weights, a draw
    scaled by their total, and the first cumulative weight exceeding it (the
    search is capped at the last index).  The library searches by bisection,
    which finds that same index when the cumulative weights do not decrease,
    that is when no weight is negative: the weights [transition_model]
    gives for a damping factor in [0,1]. *)

Class Random (G : Type) := {
  randbelow : G → nat → nat * G;
  random : G → Qc * G;
  randbelow_lt : ∀ g n, (0 < n)%nat → ((randbelow g n).1 < n)%nat
}.

Fixpoint accumulate_from (acc : Qc) (l : list Qc) : list Qc :=
  match l with
  | [] => []
  | w :: l' => (acc + w) :: accumulate_from (acc + w) l'
  end.

Definition accumulate (l : list Qc) : list Qc :=
  match l with
  | [] => []
  | w :: l' => w :: accumulate_from w l'
  end.

(** [bisect(a, x, 0, hi)] on a non-decreasing [a]: the first index below
    [hi] whose entry exceeds [x], and [hi] when there is none. *)
Fixpoint bisect (a : list Qc) (x : Qc) (hi : nat) : nat :=
  match hi, a with
  | S hi', c :: a' => if decide (x < c) then O else S (bisect a' x hi')
  | _, _ => O
  end.

Section Sampling.
Context {Page : Type} `{!EqDecision Page, !Countable Page}.
Context {G : Type} `{!Random G}.

#[local] Abbreviation corpus_t := (list (Page * gset Page)).
#[local] Abbreviation ranks_t := (list (Page * Qc)).

(** [random.choice(seq)] *)
Definition choice (g : G) (seq : list Page) : result (Page * G) :=
  if decide (seq = []) then Raise IndexError
  else
    let '(i, g') := randbelow g (length seq) in
    match seq !! i with
    | Some x => Ret (x, g')
    | None => Raise IndexError
    end.

(** [random.choices(population, weights=weights, k=1)[0]] *)
Definition choices (g : G) (population : list Page) (weights : list Qc)
  : result (Page * G) :=
  let n := length population in
  let cum_weights := accumulate weights in
  if decide (length cum_weights ≠ n) then Raise ValueError
  else
    match last cum_weights with
    | None => Raise IndexError
    | Some total =>
        if decide (total ≤ 0) then Raise ValueError
        else
          let '(u, g') := random g in
          match population !! bisect cum_weights (u * total) (n - 1) with
          | Some x => Ret (x, g')
          | None => Raise IndexError
          end
    end.

(** One pass of the [for _ in range(n)] loop, lines 95-101. *)
Definition sample_step (corpus : corpus_t) (damping_factor : Qc)
    (st : list (Page * Z) * Page * G) : result (list (Page * Z) * Page * G) :=
  let '(counts, current_page, g) := st in
  c ← dict_get current_page counts;
  let counts := dict_set current_page (c + 1)%Z counts in
  model ← transition_model corpus current_page damping_factor;
  let next_pages := model.*1 in
  let probabilities := model.*2 in
  '(current_page, g) ← choices g next_pages probabilities;
  Ret (counts, current_page, g).

(** [sample_pagerank(corpus, damping_factor, n)], lines 78-105.  [range(n)]
    is empty for [n <= 0]. *)
Definition sample_pagerank (g : G) (corpus : corpus_t) (damping_factor : Qc)
    (n : Z) : result ranks_t :=
  counts ← dict_comp (λ _, Ret 0%Z) corpus.*1;
  let pages := corpus.*1 in
  '(current_page, g) ← choice g pages;
  '(counts, _, _) ←
    foldM (λ st _, sample_step corpus damping_factor st)
      (counts, current_page, g) (seq 0 (Z.to_nat n));
  dict_comp (λ page,
    c ← dict_get page counts;
    truediv (Qc_of_Z c) (Qc_of_Z n)) corpus.*1.
End Sampling.

(** A linear congruential generator, to run the sampler. *)
Definition lcg_next (g : Z) : Z := ((1103515245 * g + 12345) mod 2147483648)%Z.

#[global] Program Instance lcg_random : Random Z := {|
  randbelow g n := (Z.to_nat (g mod Z.of_nat n), lcg_next g);
  random g := (Q2Qc (Qmake (g mod 1000) 1000), lcg_next g)
|}.
Next Obligation.
  intros g n Hn; simpl. apply Nat2Z.inj_lt.
  rewrite Z2Nat.id; apply Z.mod_pos_bound; lia.
Qed.

(** ** The mathematical reading of the program

    What the loops compute, as total functions: used to state and prove the
    properties below. *)

Definition qsum {A : Type} (f : A → Qc) (l : list A) : Qc :=
  foldr (λ x acc, f x + acc) 0 l.

(** The dictionary with keys [keys], in that order, and values [f k]. *)
Definition tab {K V : Type} (f : K → V) (keys : list K) : list (K * V) :=
  (λ k, (k, f k)) <$> keys.

Section Reading.
Context {Page : Type} `{!EqDecision Page, !Countable Page}.

#[local] Abbreviation corpus_t := (list (Page * gset Page)).
#[local] Abbreviation ranks_t := (list (Page * Qc)).

(** The graph invariant: the corpus is a dictionary (distinct keys), it is
    not empty, and every linked page is a key. *)
Definition valid_graph (corpus : corpus_t) : Prop :=
  NoDup corpus.*1 ∧ corpus ≠ [] ∧
  Forall (λ ql, ql.2 ⊆ list_to_set corpus.*1) corpus.

Definition links_of (corpus : corpus_t) (p : Page) : gset Page :=
  match dict_get p corpus with Ret l => l | _ => ∅ end.

Definition rank_of (r : ranks_t) (p : Page) : Qc :=
  match dict_get p r with Ret v => v | _ => 0 end.

(** The links the sweep uses for [q]: its own, or every page when it has
    none (line 129). *)
Definition eff_links (corpus : corpus_t) (q : Page) : gset Page :=
  if decide (links_of corpus q ≠ ∅) then links_of corpus q
  else list_to_set corpus.*1.

(** What [q] passes on to [p] in a sweep. *)
Definition share (corpus : corpus_t) (r : Page → Qc) (q p : Page) : Qc :=
  if decide (p ∈ eff_links corpus q)
  then r q / of_nat (size (eff_links corpus q)) else 0.

Definition inflow (corpus : corpus_t) (r : Page → Qc) (p : Page) : Qc :=
  qsum (λ q, share corpus r q p) corpus.*1.

Definition new_rank (corpus : corpus_t) (d : Qc) (r : Page → Qc) (p : Page)
  : Qc :=
  (1 - d) / of_nat (length corpus) + d * inflow corpus r p.

Definition step (corpus : corpus_t) (d : Qc) (r : ranks_t) : ranks_t :=
  tab (new_rank corpus d (rank_of r)) corpus.*1.

(** The convergence flag after a sweep from [old] to [new]. *)
Definition settled (corpus : corpus_t) (old new : ranks_t) : bool :=
  forallb (λ p,
    bool_decide (Qcabs (rank_of new p - rank_of old p) ≤ threshold))
    corpus.*1.

(** The total movement between two rank mappings. *)
Definition l1_dist (corpus : corpus_t) (r r' : ranks_t) : Qc :=
  qsum (λ p, Qcabs (rank_of r p - rank_of r' p)) corpus.*1.

Definition nonneg (r : ranks_t) : Prop := ∀ p, 0 ≤ rank_of r p.

(** The invariant of the loop: the keys of the corpus, ranks adding up
    to one. *)
Definition good (corpus : corpus_t) (r : ranks_t) : Prop :=
  r.*1 = corpus.*1 ∧ py_sum r.*2 = 1.

(** What both estimators promise of their result: the pages of the corpus,
    no negative rank, ranks adding up to one. *)
Definition rank_mapping (corpus : corpus_t) (out : ranks_t) : Prop :=
  out.*1 = corpus.*1 ∧ Forall (λ pv, 0 ≤ pv.2) out ∧ py_sum out.*2 = 1.

(** The state of the sampling loop after [m] passes: a counter per page,
    none negative, adding up to [m]; the current page is a page of the
    corpus. *)
Definition sample_inv {G : Type} (corpus : corpus_t) (m : Z)
    (st : list (Page * Z) * Page * G) : Prop :=
  ∃ cnt : Page → Z,
    st.1.1 = tab cnt corpus.*1 ∧ (∀ p, 0 ≤ cnt p)%Z
    ∧ qsum (λ p, Qc_of_Z (cnt p)) corpus.*1 = Qc_of_Z m
    ∧ st.1.2 ∈ corpus.*1.

Definition uniform (corpus : corpus_t) : ranks_t :=
  tab (λ _, 1 / of_nat (length corpus)) corpus.*1.

(** The transition distribution of [page], as section 4.1 gives it. *)
Definition transition_prob (corpus : corpus_t) (page : Page) (d : Qc)
    (p : Page) : Qc :=
  let links := links_of corpus page in
  let N := of_nat (length corpus) in
  if decide (links ≠ ∅) then
    (1 - d) / N + (if decide (p ∈ links) then d / of_nat (size links) else 0)
  else 1 / N.
End Reading.

(** ** The iterative estimator as section 4.3 words it

    These definitions follow the text of the specification, not the code:
    they are compared with [iterate_pagerank] below. *)

Section Spec.
Context {Page : Type} `{!EqDecision Page, !Countable Page}.

#[local] Abbreviation corpus_t := (list (Page * gset Page)).
#[local] Abbreviation ranks_t := (list (Page * Qc)).

(** "initialize every Page's rank to 1/N" *)
Definition spec_init (corpus : corpus_t) : ranks_t :=
  tab (λ _, 1 / of_nat (length corpus)) corpus.*1.

(** "(1-d)/N + d * sum over pages q linking to p of rank(q)/L(q)", a page
    without outbound links contributing "rank(q)/N to every page". *)
Definition spec_new_rank (corpus : corpus_t) (d : Qc) (r : ranks_t)
    (p : Page) : Qc :=
  let N := of_nat (length corpus) in
  (1 - d) / N
  + d * (qsum (λ q, rank_of r q / of_nat (size (links_of corpus q)))
           (filter (λ q, p ∈ links_of corpus q) corpus.*1)
         + qsum (λ q, rank_of r q / N)
             (filter (λ q, links_of corpus q = ∅) corpus.*1)).

(** "Replace the whole rank mapping with the newly computed values
    simultaneously" *)
Definition spec_sweep (corpus : corpus_t) (d : Qc) (r : ranks_t) : ranks_t :=
  tab (spec_new_rank corpus d r) corpus.*1.

(** "no Page's rank changed by more than a fixed threshold (0.001)" *)
Definition spec_stop (corpus : corpus_t) (old new : ranks_t) : bool :=
  negb (existsb (λ p,
    bool_decide (Q2Qc (1 # 1000) < Qcabs (rank_of new p - rank_of old p)))
    corpus.*1).

Fixpoint spec_loop (fuel : nat) (corpus : corpus_t) (d : Qc) (r : ranks_t)
  : result ranks_t :=
  match fuel with
  | O => OutOfFuel
  | S fuel' =>
      let new := spec_sweep corpus d r in
      if spec_stop corpus r new then Ret new
      else spec_loop fuel' corpus d new
  end.

(** "renormalize all ranks by dividing by their sum" *)
Definition spec_normalize (r : ranks_t) : ranks_t :=
  (λ pv, (pv.1, pv.2 / qsum snd r)) <$> r.

Definition spec_iterate (fuel : nat) (corpus : corpus_t) (d : Qc)
  : result ranks_t :=
  r ← spec_loop fuel corpus d (spec_init corpus);
  Ret (spec_normalize r).
End Spec.

(** ** Example graphs *)

(** [{A: {}}] *)
Definition single_page : list (string * gset string) :=
  ("A"%string, ∅) :: nil.

(** [{A: {B}, B: {A}, C: {A}}]: with damping factor 1 the ranks of [A] and
    [B] swap at every sweep. *)
Definition swap_corpus : list (string * gset string) :=
  [("A", {["B"]}); ("B", {["A"]}); ("C", {["A"]})]%string.

(** [{A: {}, B: {A}, C: {A}, D: {B, C}}] *)
Definition hub_corpus : list (string * gset string) :=
  [("A", ∅); ("B", {["A"]}); ("C", {["A"]}); ("D", {["B"; "C"]})]%string.

(** The two rank mappings between which the ranks on [swap_corpus] alternate
    when the damping factor is 1. *)
Definition swap_a : list (string * Qc) :=
  [("A", Q2Qc (2 # 3)); ("B", Q2Qc (1 # 3)); ("C", 0)]%string.

Definition swap_b : list (string * Qc) :=
  [("A", Q2Qc (1 # 3)); ("B", Q2Qc (2 # 3)); ("C", 0)]%string.

(** ** Deciding closed facts *)

#[global] Instance valid_graph_dec `{Countable Page}
    (corpus : list (Page * gset Page)) : Decision (valid_graph corpus).
Proof. unfold valid_graph. apply _. Defined.

#[global] Instance exn_eq_dec : EqDecision exn.
Proof. solve_decision. Defined.

#[global] Instance result_eq_dec {A : Type} `{!EqDecision A} :
  EqDecision (result A).
Proof. solve_decision. Defined.

(** Closed facts about the example graphs are decided by evaluation. *)
Ltac by_evaluation := apply (bool_decide_unpack _); vm_compute; exact I.

(** ** Crawling a directory (lines 24-48) *)

(** [s.endswith(suffix)] *)
Definition endswith (s suffix : string) : bool :=
  let n := String.length s in
  let m := String.length suffix in
  if (m <=? n)%nat
  then bool_decide (String.substring (n - m) m s = suffix)
  else false.

Section Crawl.
(** [re.findall] with the pattern of line 38, applied to the contents of a
    file: the regular-expression engine belongs to Python's library. *)
Variable findall_href : string → list string.

(** The first loop, lines 33-39.  A directory is the list of its entries, a
    file name with the contents of the file, in the order [os.listdir]
    gives them.  Every entry comes with its contents: [open] and [read] of
    lines 36-37 are taken to succeed, whereas on a sub-directory or an
    undecodable file whose name ends in ".html" the program fails there. *)
Definition crawl_extract (directory : list (string * string))
  : list (string * gset string) :=
  foldl (λ pages '(filename, contents),
    if negb (endswith filename ".html") then pages
    else
      let links := findall_href contents in
      dict_set filename (list_to_set links ∖ {[filename]}) pages)
    [] directory.

(** The second loop, lines 42-46. *)
Definition crawl_restrict (pages : list (string * gset string))
  : result (list (string * gset string)) :=
  foldM (λ pages filename,
    l ← dict_get filename pages;
    Ret (dict_set filename (filter (λ link, link ∈ pages.*1) l) pages))
    pages pages.*1.

(** [crawl(directory)] *)
Definition crawl (directory : list (string * string))
  : result (list (string * gset string)) :=
  crawl_restrict (crawl_extract directory).

(** The names of the pages of a directory. *)
Definition html_files (directory : list (string * string)) : list string :=
  filter (λ name, endswith name ".html" = true) directory.*1.

(** The links [crawl] keeps for the file [filename] with contents
    [contents]. *)
Definition kept_links (directory : list (string * string))
    (filename contents : string) : gset string :=
  filter (λ link, link ∈ html_files directory)
    (list_to_set (findall_href contents) ∖ {[filename]}).

Definition crawl_table (directory : list (string * string))
  : list (string * gset string) :=
  (λ fc, (fc.1, kept_links directory fc.1 fc.2))
    <$> filter (λ fc, endswith fc.1 ".html" = true) directory.
End Crawl.

(** ** The command line (lines 6-21) *)

Definition DAMPING : Qc := Q2Qc (85 # 100).
Definition SAMPLES : Z := 10000.

(** What [main] prints: a heading, or the line of a page,
    [print(f"  {page}: {ranks[page]:.4f}")], kept as the page and the rank
    it shows. *)
Inductive printed : Type :=
  | Heading (text : string)
  | RankLine (page : string) (rank : Qc).

(** A run of the program, with what was printed so far: it goes on with a
    value, leaves through [sys.exit], dies of an uncaught exception, or is
    still in the loop of [iterate_pagerank] when the fuel is spent. *)
Inductive run (A : Type) : Type :=
  | Fine (a : A) (out : list printed)
  | SystemExit (msg : string) (out : list printed)
  | Uncaught (e : exn) (out : list printed)
  | Running (out : list printed).

Arguments Fine {A} a out.
Arguments SystemExit {A} msg out.
Arguments Uncaught {A} e out.
Arguments Running {A} out.

Definition prog (A : Type) : Type := list printed → run A.

#[global] Instance prog_ret : MRet prog := λ A a out, Fine a out.
#[global] Instance prog_bind : MBind prog := λ A B f m out,
  match m out with
  | Fine a out' => f a out'
  | SystemExit msg out' => SystemExit msg out'
  | Uncaught e out' => Uncaught e out'
  | Running out' => Running out'
  end.

(** A computation that prints nothing. *)
Definition lift {A : Type} (m : result A) : prog A := λ out,
  match m with
  | Ret a => Fine a out
  | Raise e => Uncaught e out
  | OutOfFuel => Running out
  end.

Definition print (line : printed) : prog unit := λ out, Fine tt (out ++ [line]).

Definition sys_exit {A : Type} (msg : string) : prog A := λ out,
  SystemExit msg out.

(** [for x in l: body(x)] *)
Fixpoint for_each {A : Type} (l : list A) (body : A → prog unit) : prog unit :=
  match l with
  | [] => mret tt
  | x :: l' => body x ≫= λ _, for_each l' body
  end.

(** [sorted] on strings: Python sorts with a stable merge sort, in the
    order of the code points. *)
Definition py_sorted (l : list string) : list string :=
  merge_sort String.le l.

(** [seq[i]] *)
Definition index {A : Type} (l : list A) (i : nat) : result A :=
  match l !! i with
  | Some x => Ret x
  | None => Raise IndexError
  end.

Section Main.
Context {G : Type} `{!Random G}.
Variable findall_href : string → list string.
(** [os.listdir] with the contents of the files: the entries of a
    directory. *)
Variable listdir : string → list (string * string).

(** Lines 16-17 and 20-21. *)
Definition print_ranks (ranks : list (string * Qc)) : prog unit :=
  for_each (py_sorted ranks.*1) (λ page,
    rank ← lift (dict_get page ranks);
    print (RankLine page rank)).

(** [main()], with [sys.argv] as argument. *)
Definition main (g : G) (fuel : nat) (argv : list string) : prog unit :=
  (if decide (length argv ≠ 2%nat)
   then sys_exit "Usage: python pagerank.py corpus" else mret tt) ≫= λ _,
  directory ← lift (index argv 1);
  corpus ← lift (crawl findall_href (listdir directory));
  ranks ← lift (sample_pagerank g corpus DAMPING SAMPLES);
  print (Heading ("PageRank Results from Sampling (n = "
                  +:+ pretty SAMPLES +:+ ")")) ≫= λ _,
  print_ranks ranks ≫= λ _,
  ranks ← lift (iterate_pagerank fuel corpus DAMPING);
  print (Heading "PageRank Results from Iteration") ≫= λ _,
  print_ranks ranks.

(** The lines [print_ranks] adds for a rank mapping. *)
Definition rank_lines (ranks : list (string * Qc)) : list printed :=
  (λ page, RankLine page (rank_of ranks page)) <$> py_sorted ranks.*1.
End Main.

Definition toy_directory : list (string * string) :=
  [("1.html", "2.html 3.html"); ("2.html", "3.html 2.html x.html");
   ("notes.txt", "1.html"); ("3.html", "2.html")]%string.

(** [{A: {B, X}, B: {A}}]: the link to [X] leaves the corpus. *)
Definition open_corpus : list (string * gset string) :=
  [("A", {["B"; "X"]}); ("B", {["A"]})]%string.

(** ** The loop of [iterate_pagerank] in binary64

    Lines 117-136 once more, on the floating-point numbers of Python (IEEE
    754 binary64, rounding to nearest even): the same dictionaries, the same
    order of the operations.  An [int] that meets a [float] is converted
    first; [x / y] raises on a zero divisor and nothing else raises. *)

Module Binary64.

Definition of_nat (n : nat) : float :=
  PrimFloat.of_uint63 (Uint63.of_Z (Z.of_nat n)).

Definition truediv (x y : float) : result float :=
  if PrimFloat.eqb y 0%float then Raise ZeroDivisionError
  else Ret (x / y)%float.

(** The float that the literal [0.001] denotes. *)
Definition threshold : float := 0x1.0624dd2f1a9fcp-10%float.

Section Loop.
Context {Page : Type} `{!EqDecision Page, !Countable Page}.

#[local] Abbreviation corpus_t := (list (Page * gset Page)).
#[local] Abbreviation ranks_t := (list (Page * float)).

(** Line 118. *)
Definition initial (corpus : corpus_t) : result ranks_t :=
  dict_comp (λ _, truediv 1%float (of_nat (length corpus))) corpus.*1.

(** Lines 126-131. *)
Definition incoming (corpus : corpus_t) (pagerank : ranks_t) (page : Page)
  : result float :=
  foldM (λ total possible_page,
    l ← dict_get possible_page corpus;
    let links : gset Page :=
      if decide (l ≠ ∅) then l else list_to_set corpus.*1 in
    if decide (page ∈ links) then
      r ← dict_get possible_page pagerank;
      q ← truediv r (of_nat (size links));
      Ret (total + q)%float
    else Ret total) 0%float corpus.*1.

(** Lines 123-136. *)
Definition sweep (corpus : corpus_t) (damping_factor : float) (N : nat)
    (pagerank : ranks_t) : result (ranks_t * bool) :=
  foldM (λ '(new_pagerank, convergence) page,
    total ← incoming corpus pagerank page;
    base ← truediv (1 - damping_factor)%float (of_nat N);
    let new_rank := (base + damping_factor * total)%float in
    let new_pagerank := dict_set page new_rank new_pagerank in
    new ← dict_get page new_pagerank;
    old ← dict_get page pagerank;
    if PrimFloat.ltb threshold (PrimFloat.abs (new - old)%float)
    then Ret (new_pagerank, false)
    else Ret (new_pagerank, convergence)) ([], true) corpus.*1.

(** Lines 122-136. *)
Fixpoint while_not_convergence (fuel : nat) (corpus : corpus_t)
    (damping_factor : float) (N : nat) (pagerank : ranks_t) : result ranks_t :=
  match fuel with
  | O => OutOfFuel
  | S fuel' =>
      '(new_pagerank, convergence) ← sweep corpus damping_factor N pagerank;
      if convergence : bool then Ret new_pagerank
      else while_not_convergence fuel' corpus damping_factor N new_pagerank
  end.
End Loop.

End Binary64.

(** The largest float below 1, which Python writes [0.9999999999999999]. *)
Definition below_one : float := 0x1.fffffffffffffp-1%float.

(** [{A: {B}, B: {A}, C: {A}, D: {E}, E: {D}, F: {D}, G: {H}, H: {G}}] *)
Definition cycle_corpus : list (string * gset string) :=
  [("A", {["B"]}); ("B", {["A"]}); ("C", {["A"]}); ("D", {["E"]});
   ("E", {["D"]}); ("F", {["D"]}); ("G", {["H"]}); ("H", {["G"]})]%string.

(** The two rank mappings the binary64 loop alternates between on
    [cycle_corpus] with damping factor [below_one]. *)
Definition cycle_a : list (string * float) :=
  [("A", 0.25); ("B", 0.125); ("C", 0x1p-56); ("D", 0.25); ("E", 0.125);
   ("F", 0x1p-56); ("G", 0.125); ("H", 0.125)]%string%float.

Definition cycle_b : list (string * float) :=
  [("A", 0.125); ("B", 0.25); ("C", 0x1p-56); ("D", 0.125); ("E", 0.25);
   ("F", 0x1p-56); ("G", 0.125); ("H", 0.125)]%string%float.

(** * Properties *)

(** ** Arithmetic on [Qc] through [Q] *)

Lemma this_plus (x y : Qc) : (this (x + y) == this x + this y)%Q.
Proof. apply Qred_correct. Qed.

Lemma this_mult (x y : Qc) : (this (x * y) == this x * this y)%Q.
Proof. apply Qred_correct. Qed.

Lemma this_opp (x : Qc) : (this (- x) == - this x)%Q.
Proof. apply Qred_correct. Qed.

Lemma this_minus (x y : Qc) : (this (x - y) == this x - this y)%Q.
Proof. unfold Qcminus. rewrite this_plus, this_opp. reflexivity. Qed.

Lemma this_Q2Qc (q : Q) : (this (Q2Qc q) == q)%Q.
Proof. apply Qred_correct. Qed.

Lemma Qc_eq_iff (x y : Qc) : x = y ↔ (this x == this y)%Q.
Proof. split; [intros ->; reflexivity | apply Qc_is_canon]. Qed.

(** Linear (and some non-linear) arithmetic on [Qc]: move to [Q], where
    [lra] and [nra] work. *)
Ltac qc_push :=
  repeat first
    [ rewrite this_plus | rewrite this_minus | rewrite this_mult
    | rewrite this_opp | rewrite this_Q2Qc ].

Ltac qc_push_in H :=
  repeat first
    [ rewrite this_plus in H | rewrite this_minus in H
    | rewrite this_mult in H | rewrite this_opp in H
    | rewrite this_Q2Qc in H ].

Ltac qc_arith :=
  unfold Qcle, Qclt in *;
  repeat match goal with
  | H : @eq Qc _ _ |- _ => apply Qc_eq_iff in H
  | H : ¬ @eq Qc _ _ |- _ => rewrite Qc_eq_iff in H
  | |- @eq Qc _ _ => apply Qc_eq_iff
  | |- ¬ @eq Qc _ _ => rewrite Qc_eq_iff
  end;
  repeat match goal with
  | H : _ |- _ => progress (qc_push_in H)
  end;
  qc_push; first [lra | nra].

Lemma of_nat_S (n : nat) : of_nat (S n) = of_nat n + 1.
Proof.
  unfold of_nat, Qc_of_Z. apply Qc_eq_iff. rewrite this_plus. cbn [this].
  rewrite Nat2Z.inj_succ. unfold Z.succ. rewrite inject_Z_plus. reflexivity.
Qed.

Lemma of_nat_0 : of_nat 0 = 0.
Proof. apply Qc_eq_iff. reflexivity. Qed.

Lemma of_nat_nonneg (n : nat) : 0 ≤ of_nat n.
Proof. induction n; [rewrite of_nat_0; done|rewrite of_nat_S; qc_arith]. Qed.

Lemma of_nat_pos (n : nat) : (0 < n)%nat → 0 < of_nat n.
Proof.
  destruct n; [lia|intros _]. pose proof (of_nat_nonneg n).
  rewrite of_nat_S. qc_arith.
Qed.

Lemma of_nat_neq_0 (n : nat) : n ≠ O → of_nat n ≠ 0.
Proof.
  intros Hn. assert (0 < of_nat n) by (apply of_nat_pos; lia). qc_arith.
Qed.

Lemma truediv_Ret (x y : Qc) : y ≠ 0 → truediv x y = Ret (x / y).
Proof. intros Hy. unfold truediv. by rewrite decide_False. Qed.

(** ** The [result] monad and [foldM] *)

Lemma bind_Ret_inv {A B : Type} (m : result A) (f : A → result B) (b : B) :
  m ≫= f = Ret b → ∃ a, m = Ret a ∧ f a = Ret b.
Proof. destruct m as [a| |]; simpl; [eauto | done | done]. Qed.

Lemma foldM_app {A B : Type} (f : B → A → result B) (b : B) (l1 l2 : list A) :
  foldM f b (l1 ++ l2) = foldM f b l1 ≫= λ b', foldM f b' l2.
Proof.
  revert b. induction l1 as [|x l1 IH]; intros b; simpl; [done|].
  destruct (f b x); simpl; auto.
Qed.

(** A loop whose body never raises on the keys at hand computes a pure fold. *)
Lemma foldM_pure {A B : Type} (f : B → A → result B) (g : B → A → B)
    (P : A → Prop) (l : list A) (b : B) :
  (∀ b x, P x → f b x = Ret (g b x)) → Forall P l →
  foldM f b l = Ret (foldl g b l).
Proof.
  intros Hf Hl. revert b. induction Hl as [|x l Hx _ IH]; intros b; simpl.
  - done.
  - rewrite (Hf _ _ Hx). simpl. apply IH.
Qed.

(** ** Dictionaries *)

Section DictFacts.
Context {K : Type} `{!EqDecision K} {V : Type}.
Implicit Types (d : list (K * V)) (k : K) (v : V).

Lemma dict_set_fresh k v d : k ∉ d.*1 → dict_set k v d = d ++ [(k, v)].
Proof.
  induction d as [|[k' v'] d IH]; simpl; [done|].
  rewrite not_elem_of_cons. intros [Hne Hk].
  rewrite decide_False by done. by rewrite IH.
Qed.

Lemma dict_set_keys k v d : k ∈ d.*1 → (dict_set k v d).*1 = d.*1.
Proof.
  induction d as [|[k' v'] d IH]; simpl.
  - by intros ?%elem_of_nil.
  - destruct (decide (k = k')) as [->|Hne]; [done|].
    rewrite elem_of_cons. intros [?|Hk]; [done|]. simpl. f_equal. by apply IH.
Qed.

Lemma dict_get_set_eq k v d : dict_get k (dict_set k v d) = Ret v.
Proof.
  induction d as [|[k' v'] d IH]; simpl.
  - by rewrite decide_True.
  - destruct (decide (k = k')) as [->|Hne]; simpl.
    + by rewrite decide_True.
    + by rewrite decide_False.
Qed.

Lemma dict_get_set_ne k k' v d :
  k ≠ k' → dict_get k (dict_set k' v d) = dict_get k d.
Proof.
  intros Hne. induction d as [|[k0 v0] d IH]; simpl.
  - by rewrite decide_False.
  - destruct (decide (k' = k0)) as [->|Hne']; simpl.
    + by rewrite !decide_False.
    + destruct (decide (k = k0)); [done|apply IH].
Qed.

Lemma dict_set_set_eq k v v' d :
  dict_set k v' (dict_set k v d) = dict_set k v' d.
Proof.
  induction d as [|[k0 v0] d IH]; simpl.
  - by rewrite decide_True.
  - destruct (decide (k = k0)) as [->|Hne]; simpl.
    + by rewrite decide_True.
    + rewrite decide_False by done. by rewrite IH.
Qed.

Lemma dict_get_tab (f : K → V) k (keys : list K) :
  k ∈ keys → dict_get k (tab f keys) = Ret (f k).
Proof.
  induction keys as [|k' keys IH]; simpl.
  - by intros ?%elem_of_nil.
  - destruct (decide (k = k')) as [->|Hne]; [done|].
    rewrite elem_of_cons. intros [?|Hk]; [done|]. by apply IH.
Qed.

Lemma dict_get_is_Ret k d : k ∈ d.*1 → ∃ v, dict_get k d = Ret v.
Proof.
  induction d as [|[k' v'] d IH]; simpl.
  - by intros ?%elem_of_nil.
  - destruct (decide (k = k')) as [->|Hne]; [eauto|].
    rewrite elem_of_cons. intros [?|Hk]; [done|]. by apply IH.
Qed.

Lemma dict_get_Ret_keys k v d : dict_get k d = Ret v → k ∈ d.*1.
Proof.
  induction d as [|[k' v'] d IH]; simpl; [done|].
  destruct (decide (k = k')) as [->|Hne]; intros Hg.
  - apply elem_of_cons; by left.
  - apply elem_of_cons; right. by apply IH.
Qed.

Lemma tab_keys (f : K → V) (keys : list K) : (tab f keys).*1 = keys.
Proof.
  unfold tab. rewrite <-list_fmap_compose. 
  induction keys; simpl; [done|by f_equal].
Qed.

Lemma tab_values (f : K → V) (keys : list K) : (tab f keys).*2 = f <$> keys.
Proof. unfold tab. by rewrite <-list_fmap_compose. Qed.

Lemma tab_app (f : K → V) (l1 l2 : list K) :
  tab f (l1 ++ l2) = tab f l1 ++ tab f l2.
Proof. unfold tab. by rewrite fmap_app. Qed.

Lemma tab_ext (f g : K → V) (keys : list K) :
  (∀ k, k ∈ keys → f k = g k) → tab f keys = tab g keys.
Proof.
  intros Hfg. unfold tab. apply list_fmap_ext. 
  intros i k Hk. rewrite (Hfg k); [done|]. by eapply list_elem_of_lookup_2.
Qed.

(** A dictionary is the table of its own lookups. *)
Lemma dict_is_tab (h : result V → V) d :
  (∀ v, h (Ret v) = v) → NoDup d.*1 →
  d = tab (λ k, h (dict_get k d)) d.*1.
Proof.
  intros Hh. induction d as [|[k v] d IH]; simpl; [done|].
  rewrite NoDup_cons. intros [Hk Hnd].
  rewrite decide_True by done. rewrite Hh. f_equal.
  rewrite IH at 1 by done. apply tab_ext. intros k' Hk'.
  rewrite decide_False; [done|]. intros ->. done.
Qed.

(** Filling a dictionary key by key, over distinct keys, builds a table. *)
Lemma fill_tab (body : list (K * V) → K → result (list (K * V)))
    (f : K → V) (done_keys keys : list K) :
  NoDup (done_keys ++ keys) →
  (∀ acc k, k ∈ keys → k ∉ acc.*1 → body acc k = Ret (acc ++ [(k, f k)])) →
  foldM body (tab f done_keys) keys = Ret (tab f (done_keys ++ keys)).
Proof.
  revert done_keys. induction keys as [|k keys IH]; intros done_keys Hnd Hb.
  - simpl. by rewrite app_nil_r.
  - simpl. rewrite Hb.
    + simpl. replace (tab f done_keys ++ [(k, f k)]) with (tab f (done_keys ++ [k]))
        by (by rewrite tab_app).
      rewrite IH.
      * by rewrite <-app_assoc.
      * by rewrite <-app_assoc.
      * intros acc k' Hk'. apply Hb. apply elem_of_cons; by right.
    + apply elem_of_cons; by left.
    + rewrite tab_keys. apply NoDup_app in Hnd as (_ & Hd & _).
      intros Hin. apply (Hd k Hin). apply elem_of_cons; by left.
Qed.

Lemma fill_tab_nil (body : list (K * V) → K → result (list (K * V)))
    (f : K → V) (keys : list K) :
  NoDup keys →
  (∀ acc k, k ∈ keys → k ∉ acc.*1 → body acc k = Ret (acc ++ [(k, f k)])) →
  foldM body [] keys = Ret (tab f keys).
Proof. intros Hnd Hb. by apply (fill_tab body f [] keys). Qed.

Lemma dict_comp_tab (g : K → result V) (f : K → V) (keys : list K) :
  NoDup keys → (∀ k, k ∈ keys → g k = Ret (f k)) →
  dict_comp g keys = Ret (tab f keys).
Proof.
  intros Hnd Hg. unfold dict_comp.
  apply (fill_tab_nil _ f); [done|].
  intros acc k Hk Hfresh. rewrite Hg by done. simpl.
  by rewrite dict_set_fresh.
Qed.
End DictFacts.

(** ** Sums *)

Section Sums.
Context {A : Type}.
Implicit Types (f g : A → Qc) (l : list A).

Lemma qsum_cons f x l : qsum f (x :: l) = f x + qsum f l.
Proof. done. Qed.

Lemma qsum_app f l1 l2 : qsum f (l1 ++ l2) = qsum f l1 + qsum f l2.
Proof.
  induction l1 as [|x l1 IH]; simpl.
  - ring.
  - fold (qsum f (l1 ++ l2)) (qsum f l1). rewrite IH. ring.
Qed.

Lemma qsum_ext f g l : (∀ x, x ∈ l → f x = g x) → qsum f l = qsum g l.
Proof.
  induction l as [|x l IH]; intros Hfg; [done|].
  rewrite !qsum_cons, Hfg, IH; [done| |apply elem_of_cons; by left].
  intros y Hy. apply Hfg. apply elem_of_cons; by right.
Qed.

Lemma qsum_plus f g l : qsum (λ x, f x + g x) l = qsum f l + qsum g l.
Proof.
  induction l as [|x l IH]; [by vm_compute|].
  rewrite !qsum_cons, IH. ring.
Qed.

Lemma qsum_scale c f l : qsum (λ x, c * f x) l = c * qsum f l.
Proof.
  induction l as [|x l IH]; [cbn; ring|].
  rewrite !qsum_cons, IH. ring.
Qed.

Lemma qsum_const c l : qsum (λ _, c) l = of_nat (length l) * c.
Proof.
  induction l as [|x l IH]; [cbn; rewrite of_nat_0; ring|].
  rewrite qsum_cons, IH. cbn [length]. rewrite of_nat_S. ring.
Qed.

Lemma qsum_zero l : qsum (λ _ : A, 0) l = 0.
Proof. rewrite qsum_const. ring. Qed.

Lemma qsum_le f g l : (∀ x, x ∈ l → f x ≤ g x) → qsum f l ≤ qsum g l.
Proof.
  induction l as [|x l IH]; intros Hfg; [done|].
  rewrite !qsum_cons. apply Qcplus_le_compat.
  - apply Hfg. apply elem_of_cons; by left.
  - apply IH. intros y Hy. apply Hfg. apply elem_of_cons; by right.
Qed.

Lemma qsum_nonneg f l : (∀ x, x ∈ l → 0 ≤ f x) → 0 ≤ qsum f l.
Proof. intros Hf. rewrite <-(qsum_zero l). by apply qsum_le. Qed.

Lemma qsum_abs f l : Qcabs (qsum f l) ≤ qsum (λ x, Qcabs (f x)) l.
Proof.
  induction l as [|x l IH]; [done|].
  rewrite !qsum_cons. eapply Qcle_trans; [apply Qcabs_triangle|].
  by apply Qcplus_le_compat.
Qed.

Lemma qsum_elem_le f x l :
  (∀ y, y ∈ l → 0 ≤ f y) → x ∈ l → f x ≤ qsum f l.
Proof.
  induction l as [|y l IH]; intros Hf Hx; [by apply elem_of_nil in Hx|].
  rewrite qsum_cons.
  assert (0 ≤ f y) as Hy by (apply Hf, elem_of_cons; by left).
  assert (0 ≤ qsum f l) as Hl.
  { apply qsum_nonneg. intros z Hz. apply Hf, elem_of_cons; by right. }
  apply elem_of_cons in Hx as [->|Hx].
  - qc_arith.
  - assert (f x ≤ qsum f l).
    { apply IH; [|done]. intros z Hz. apply Hf, elem_of_cons; by right. }
    qc_arith.
Qed.

Lemma qsum_filter (P : A → Prop) `{!∀ x, Decision (P x)} f l :
  qsum f (filter P l) = qsum (λ x, if decide (P x) then f x else 0) l.
Proof.
  induction l as [|x l IH]; [done|].
  rewrite filter_cons, qsum_cons. destruct (decide (P x)).
  - by rewrite qsum_cons, IH.
  - rewrite IH. ring.
Qed.

End Sums.

Lemma qsum_exchange {A B : Type} (h : A → B → Qc) (l : list A) (l' : list B) :
  qsum (λ x, qsum (λ y, h x y) l') l = qsum (λ y, qsum (λ x, h x y) l) l'.
Proof.
  induction l as [|x l IH].
  - change (0 = qsum (λ _ : B, 0) l'). by rewrite qsum_zero.
  - rewrite qsum_cons, IH, <-qsum_plus. done.
Qed.

Lemma qsum_fmap {A B : Type} (k : B → A) (f : A → Qc) (l' : list B) :
  qsum f (k <$> l') = qsum (λ y, f (k y)) l'.
Proof. induction l' as [|y l' IH]; [done|]. cbn. f_equal. apply IH. Qed.

Lemma fold_left_plus (l : list Qc) (a : Qc) :
  fold_left Qcplus l a = a + qsum id l.
Proof.
  revert a. induction l as [|x l IH]; intros a.
  - cbn. ring.
  - cbn [fold_left]. rewrite IH, qsum_cons. unfold id at 2. ring.
Qed.

Lemma py_sum_fmap {A : Type} (f : A → Qc) (l : list A) :
  py_sum (f <$> l) = qsum f l.
Proof.
  unfold py_sum. rewrite fold_left_plus, qsum_fmap.
  change (λ y : A, id (f y)) with f. ring.
Qed.

Lemma py_sum_tab {K : Type} (f : K → Qc) (keys : list K) :
  py_sum (tab f keys).*2 = qsum f keys.
Proof. by rewrite tab_values, py_sum_fmap. Qed.

(** Counting the members of a set along a duplicate-free list of keys. *)
Lemma qsum_members `{Countable K} (S : gset K) (keys : list K) (c : Qc) :
  NoDup keys → S ⊆ list_to_set keys →
  qsum (λ p, if decide (p ∈ S) then c else 0) keys = of_nat (size S) * c.
Proof.
  intros Hnd Hsub.
  rewrite <-(qsum_filter (λ p, p ∈ S) (λ _, c)), qsum_const.
  f_equal. f_equal. unfold size, set_size. simpl.
  apply Permutation_length, NoDup_Permutation.
  - by apply NoDup_filter.
  - apply NoDup_elements.
  - intros x. rewrite list_elem_of_filter, elem_of_elements.
    split; [by intros [? _]|]. intros Hx. split; [done|].
    apply Hsub in Hx. by apply elem_of_list_to_set in Hx.
Qed.

Lemma Qcdiv_nonneg (a b : Qc) : 0 ≤ a → 0 < b → 0 ≤ a / b.
Proof.
  intros Ha Hb. assert (b ≠ 0) as Hb0 by qc_arith.
  pose proof (Qcmult_div_r a b Hb0) as E. revert E.
  generalize (a / b). intros x E.
  destruct (Qclt_le_dec x 0) as [Hx|Hx]; [|done]. exfalso. qc_arith.
Qed.

Lemma Qcdiv_pos (a b : Qc) : 0 < a → 0 < b → 0 < a / b.
Proof.
  intros Ha Hb. assert (b ≠ 0) as Hb0 by qc_arith.
  pose proof (Qcmult_div_r a b Hb0) as E. revert E.
  generalize (a / b). intros x E.
  destruct (Qclt_le_dec 0 x) as [Hx|Hx]; [done|]. exfalso. qc_arith.
Qed.

(** ** Valid graphs *)

Section Graph.
Context {Page : Type} `{!EqDecision Page, !Countable Page}.
Implicit Types (corpus : list (Page * gset Page)) (r : list (Page * Qc)).
Implicit Types (p q page : Page) (d : Qc).

Lemma dict_get_elem {V : Type} (k : Page) (v : V) (m : list (Page * V)) :
  NoDup m.*1 → (k, v) ∈ m → dict_get k m = Ret v.
Proof.
  induction m as [|[k' v'] m IH]; simpl.
  - by intros _ ?%elem_of_nil.
  - rewrite NoDup_cons, elem_of_cons. intros [Hk Hnd] [[= -> ->]|Hin].
    + by rewrite decide_True.
    + rewrite decide_False; [by apply IH|].
      intros ->. apply Hk. apply list_elem_of_fmap. by exists (k', v).
Qed.

Lemma dict_get_Ret_elem {V : Type} (k : Page) (v : V) (m : list (Page * V)) :
  dict_get k m = Ret v → (k, v) ∈ m.
Proof.
  induction m as [|[k' v'] m IH]; simpl; [done|].
  destruct (decide (k = k')) as [->|Hne].
  - intros [= ->]. apply elem_of_cons; by left.
  - intros Hg. apply elem_of_cons; right. by apply IH.
Qed.

Lemma corpus_get corpus q :
  q ∈ corpus.*1 → dict_get q corpus = Ret (links_of corpus q).
Proof.
  intros Hq. destruct (dict_get_is_Ret q corpus Hq) as [l Hl].
  unfold links_of. by rewrite Hl.
Qed.

Lemma links_of_elem corpus q l :
  NoDup corpus.*1 → (q, l) ∈ corpus → links_of corpus q = l.
Proof. intros Hnd Hin. unfold links_of. by rewrite (dict_get_elem q l). Qed.

Lemma rank_of_tab (f : Page → Qc) (keys : list Page) p :
  p ∈ keys → rank_of (tab f keys) p = f p.
Proof. intros Hp. unfold rank_of. by rewrite dict_get_tab. Qed.

Lemma ranks_get r p : p ∈ r.*1 → dict_get p r = Ret (rank_of r p).
Proof.
  intros Hp. destruct (dict_get_is_Ret p r Hp) as [v Hv].
  unfold rank_of. by rewrite Hv.
Qed.

Lemma ranks_is_tab r : NoDup r.*1 → r = tab (rank_of r) r.*1.
Proof.
  intros Hnd.
  apply (dict_is_tab (λ m, match m with Ret v => v | _ => 0 end)); done.
Qed.

Lemma valid_length corpus : valid_graph corpus → length corpus ≠ O.
Proof. intros (_ & Hne & _). by destruct corpus. Qed.

Lemma valid_N_neq_0 corpus : valid_graph corpus → of_nat (length corpus) ≠ 0.
Proof. intros Hv. by apply of_nat_neq_0, valid_length. Qed.

Lemma valid_links_closed corpus q :
  valid_graph corpus → q ∈ corpus.*1 →
  links_of corpus q ⊆ list_to_set corpus.*1.
Proof.
  intros (Hnd & _ & Hcl) Hq. rewrite Forall_forall in Hcl.
  apply (Hcl (q, links_of corpus q)).
  apply dict_get_Ret_elem. by apply corpus_get.
Qed.

Lemma size_neq_0 (S : gset Page) : S ≠ ∅ → size S ≠ O.
Proof. intros HS Hsz. apply HS. apply leibniz_equiv. by apply size_empty_inv. Qed.

Lemma size_keys (keys : list Page) :
  NoDup keys → size (list_to_set (C := gset Page) keys) = length keys.
Proof. apply size_list_to_set. Qed.

(** ** The transition model *)

Lemma transition_model_tab corpus page d :
  NoDup corpus.*1 → corpus ≠ [] → page ∈ corpus.*1 →
  transition_model corpus page d
  = Ret (tab (transition_prob corpus page d) corpus.*1).
Proof.
  intros Hnd Hne Hpage.
  assert (of_nat (length corpus.*1) ≠ 0) as HN.
  { apply of_nat_neq_0. rewrite length_fmap. by destruct corpus. }
  unfold transition_model. rewrite corpus_get by done. simpl.
  destruct (decide (links_of corpus page ≠ ∅)) as [Hl|Hl].
  - apply (fill_tab_nil _ (transition_prob corpus page d)); [done|].
    intros acc p Hp Hfresh. rewrite (truediv_Ret (1 - d)) by done. simpl.
    unfold transition_prob.
    destruct (decide (links_of corpus page ≠ ∅)) as [_|?]; [|done].
    rewrite length_fmap.
    destruct (decide (p ∈ links_of corpus page)) as [Hin|Hin].
    + rewrite dict_get_set_eq. simpl.
      rewrite truediv_Ret by by apply of_nat_neq_0, size_neq_0.
      simpl. rewrite dict_set_set_eq. by rewrite dict_set_fresh.
    + rewrite dict_set_fresh by done. do 4 f_equal. ring.
  - apply (fill_tab_nil _ (transition_prob corpus page d)); [done|].
    intros acc p Hp Hfresh. rewrite truediv_Ret by done. simpl.
    unfold transition_prob.
    destruct (decide (links_of corpus page ≠ ∅)) as [?|_]; [done|].
    rewrite length_fmap. by rewrite dict_set_fresh.
Qed.

Lemma transition_prob_nonneg corpus page d p :
  corpus ≠ [] → 0 ≤ d → d ≤ 1 → 0 ≤ transition_prob corpus page d p.
Proof.
  intros Hne Hd0 Hd1.
  assert (0 < of_nat (length corpus)) as HN.
  { apply of_nat_pos. destruct corpus; [done|simpl; lia]. }
  unfold transition_prob.
  destruct (decide (links_of corpus page ≠ ∅)) as [Hl|Hl].
  - assert (0 ≤ (1 - d) / of_nat (length corpus)) as Hb.
    { apply Qcdiv_nonneg; [qc_arith|done]. }
    destruct (decide (p ∈ links_of corpus page)).
    + assert (0 ≤ d / of_nat (size (links_of corpus page))).
      { apply Qcdiv_nonneg; [done|].
        apply of_nat_pos. apply size_neq_0 in Hl. lia. }
      qc_arith.
    + qc_arith.
  - apply Qcdiv_nonneg; [qc_arith|done].
Qed.

Lemma transition_prob_total corpus page d :
  valid_graph corpus → page ∈ corpus.*1 →
  qsum (transition_prob corpus page d) corpus.*1 = 1.
Proof.
  intros Hv Hpage. pose proof (valid_N_neq_0 corpus Hv) as HN.
  destruct Hv as (Hnd & Hne & Hcl).
  unfold transition_prob.
  destruct (decide (links_of corpus page ≠ ∅)) as [Hl|Hl].
  - rewrite qsum_plus, qsum_const, length_fmap.
    rewrite qsum_members; [|done|by apply valid_links_closed].
    apply size_neq_0, of_nat_neq_0 in Hl. by field.
  - rewrite qsum_const, length_fmap. by field.
Qed.
End Graph.

Lemma foldM_fmap {A B C : Type} (f : B → A → result B) (h : C → A) (b : B)
    (l : list C) :
  foldM f b (h <$> l) = foldM (λ b x, f b (h x)) b l.
Proof.
  revert b. induction l as [|x l IH]; intros b; simpl; [done|].
  destruct (f b (h x)); simpl; auto.
Qed.

Lemma forallb_ext_elem {A : Type} (f g : A → bool) (l : list A) :
  (∀ x, x ∈ l → f x = g x) → forallb f l = forallb g l.
Proof.
  induction l as [|x l IH]; intros Hfg; [done|]. simpl.
  rewrite Hfg by (apply elem_of_cons; by left). f_equal.
  apply IH. intros y Hy. apply Hfg, elem_of_cons; by right.
Qed.

(** ** A sweep *)

Section Sweep.
Context {Page : Type} `{!EqDecision Page, !Countable Page}.
Implicit Types (corpus : list (Page * gset Page)) (r : list (Page * Qc)).
Implicit Types (p q page : Page) (d : Qc) (g : Page → Qc).

Lemma eff_links_nonempty corpus q : corpus ≠ [] → eff_links corpus q ≠ ∅.
Proof.
  intros Hne. unfold eff_links.
  destruct (decide (links_of corpus q ≠ ∅)); [done|].
  destruct corpus as [|[k l] corpus]; [done|]. simpl. set_solver.
Qed.

Lemma eff_links_closed corpus q :
  valid_graph corpus → q ∈ corpus.*1 →
  eff_links corpus q ⊆ list_to_set corpus.*1.
Proof.
  intros Hv Hq. unfold eff_links.
  destruct (decide (links_of corpus q ≠ ∅)); [|done].
  by apply valid_links_closed.
Qed.

Lemma eff_size_neq_0 corpus q :
  corpus ≠ [] → of_nat (size (eff_links corpus q)) ≠ 0.
Proof. intros Hne. by apply of_nat_neq_0, size_neq_0, eff_links_nonempty. Qed.

Lemma incoming_loop corpus r p (todo : list Page) (a : Qc) :
  corpus ≠ [] → r.*1 = corpus.*1 → todo ⊆ corpus.*1 →
  foldM (λ total possible_page,
    l ← dict_get possible_page corpus;
    let links : gset Page :=
      if decide (l ≠ ∅) then l else list_to_set corpus.*1 in
    if decide (p ∈ links) then
      r ← dict_get possible_page r;
      q ← truediv r (of_nat (size links));
      Ret (total + q)
    else Ret total) a todo
  = Ret (a + qsum (λ q, share corpus (rank_of r) q p) todo).
Proof.
  intros Hne Hkeys.
  match goal with |- _ → foldM ?b _ _ = _ => set (body := b) end.
  assert (∀ b q, q ∈ corpus.*1 →
    body b q = Ret (b + share corpus (rank_of r) q p)) as Hbody.
  { intros b q Hq. unfold body. rewrite corpus_get by done.
    cbn [mbind result_bind].
    change (if decide (links_of corpus q ≠ ∅) then links_of corpus q
            else list_to_set corpus.*1) with (eff_links corpus q).
    unfold share. destruct (decide (p ∈ eff_links corpus q)).
    - rewrite ranks_get by by rewrite Hkeys.
      cbn [mbind result_bind].
      rewrite truediv_Ret by by apply eff_size_neq_0. done.
    - f_equal. ring. }
  clearbody body. revert a.
  induction todo as [|q todo IH]; intros a Hsub.
  - simpl. f_equal. change (qsum _ []) with (Q2Qc 0). ring.
  - cbn [foldM]. rewrite Hbody by (apply Hsub, elem_of_cons; by left).
    cbn [mbind result_bind]. rewrite IH.
    + rewrite qsum_cons. f_equal. ring.
    + intros x Hx. apply Hsub, elem_of_cons; by right.
Qed.

Lemma incoming_inflow corpus r p :
  corpus ≠ [] → r.*1 = corpus.*1 →
  incoming corpus r p = Ret (inflow corpus (rank_of r) p).
Proof.
  intros Hne Hkeys. unfold incoming, inflow.
  rewrite incoming_loop by done. f_equal. ring.
Qed.

Lemma sweep_loop corpus d r (done_keys todo : list Page) :
  let f := new_rank corpus d (rank_of r) in
  let ok p := bool_decide (Qcabs (f p - rank_of r p) ≤ threshold) in
  corpus ≠ [] → r.*1 = corpus.*1 →
  NoDup (done_keys ++ todo) → todo ⊆ corpus.*1 →
  foldM (λ '(new_pagerank, convergence) page,
    total ← incoming corpus r page;
    base ← truediv (1 - d) (of_nat (length corpus));
    let new_rank := base + d * total in
    let new_pagerank := dict_set page new_rank new_pagerank in
    new ← dict_get page new_pagerank;
    old ← dict_get page r;
    if decide (threshold < Qcabs (new - old))
    then Ret (new_pagerank, false)
    else Ret (new_pagerank, convergence))
    (tab f done_keys, forallb ok done_keys) todo
  = Ret (tab f (done_keys ++ todo), forallb ok (done_keys ++ todo)).
Proof.
  intros f ok Hne Hkeys.
  match goal with |- _ → _ → foldM ?b _ _ = _ => set (body := b) end.
  assert (∀ acc c p, p ∈ corpus.*1 → p ∉ acc.*1 →
    body (acc, c) p = Ret (acc ++ [(p, f p)], c && ok p)) as Hbody.
  { intros acc c p Hp Hfresh. unfold body.
    rewrite incoming_inflow by done. cbn [mbind result_bind].
    rewrite truediv_Ret by (apply of_nat_neq_0; by destruct corpus).
    cbn [mbind result_bind]. rewrite dict_get_set_eq.
    cbn [mbind result_bind]. rewrite ranks_get by by rewrite Hkeys.
    cbn [mbind result_bind].
    change ((1 - d) / of_nat (length corpus)
            + d * inflow corpus (rank_of r) p) with (f p).
    rewrite dict_set_fresh by done. unfold ok.
    destruct (decide (threshold < Qcabs (f p - rank_of r p))) as [Hlt|Hge].
    - rewrite bool_decide_eq_false_2; [by rewrite andb_false_r|].
      by apply Qclt_not_le.
    - rewrite bool_decide_eq_true_2; [by rewrite andb_true_r|].
      by apply Qcnot_lt_le. }
  clearbody body. revert done_keys.
  induction todo as [|p todo IH]; intros done_keys Hnd Hsub.
  - simpl. by rewrite app_nil_r.
  - cbn [foldM]. rewrite Hbody.
    + cbn [mbind result_bind].
      replace (tab f done_keys ++ [(p, f p)])
        with (tab f (done_keys ++ [p])) by by rewrite tab_app.
      replace (forallb ok done_keys && ok p)
        with (forallb ok (done_keys ++ [p]))
        by (rewrite forallb_app; cbn [forallb]; by rewrite andb_true_r).
      rewrite IH; [by rewrite <-app_assoc|by rewrite <-app_assoc|].
      intros x Hx. apply Hsub, elem_of_cons; by right.
    + apply Hsub, elem_of_cons; by left.
    + rewrite tab_keys. apply NoDup_app in Hnd as (_ & Hd & _).
      intros Hin. apply (Hd p Hin). apply elem_of_cons; by left.
Qed.

Lemma step_keys corpus d r : (step corpus d r).*1 = corpus.*1.
Proof. apply tab_keys. Qed.

Lemma sweep_step corpus d r :
  NoDup corpus.*1 → corpus ≠ [] → r.*1 = corpus.*1 →
  sweep corpus d (length corpus) r
  = Ret (step corpus d r, settled corpus r (step corpus d r)).
Proof.
  intros Hnd Hne Hkeys. unfold sweep.
  rewrite (sweep_loop corpus d r [] corpus.*1) by done.
  rewrite app_nil_l. do 2 f_equal. unfold settled.
  apply forallb_ext_elem. intros p Hp. unfold step.
  by rewrite rank_of_tab.
Qed.

Lemma while_unfold fuel corpus d r :
  NoDup corpus.*1 → corpus ≠ [] → r.*1 = corpus.*1 →
  while_not_convergence (S fuel) corpus d (length corpus) r
  = if settled corpus r (step corpus d r) then Ret (step corpus d r)
    else while_not_convergence fuel corpus d (length corpus) (step corpus d r).
Proof. intros Hnd Hne Hkeys. simpl. by rewrite sweep_step. Qed.

(** *** Normalisation *)

Lemma total_qsum r : NoDup r.*1 → py_sum r.*2 = qsum (rank_of r) r.*1.
Proof. intros Hnd. rewrite (ranks_is_tab r) at 1 by done. apply py_sum_tab. Qed.

Lemma normalize_tab r :
  NoDup r.*1 → py_sum r.*2 ≠ 0 →
  normalize r = Ret (tab (λ p, rank_of r p / py_sum r.*2) r.*1).
Proof.
  intros Hnd Hsum. unfold normalize. cbv zeta.
  set (t := py_sum r.*2) in *.
  rewrite (ranks_is_tab r) at 1 by done. unfold tab at 1.
  rewrite foldM_fmap. apply fill_tab_nil; [done|].
  intros acc k Hk Hfresh. rewrite truediv_Ret by done. simpl.
  by rewrite dict_set_fresh.
Qed.

Lemma normalize_id r :
  NoDup r.*1 → py_sum r.*2 = 1 → normalize r = Ret r.
Proof.
  intros Hnd Hsum. rewrite normalize_tab by (by rewrite ?Hsum).
  rewrite Hsum. f_equal.
  etrans; [|symmetry; by apply ranks_is_tab].
  apply tab_ext. intros k _. apply Qcdiv_right_id.
Qed.

(** *** The total rank along a sweep *)

Lemma share_total corpus g q :
  valid_graph corpus → q ∈ corpus.*1 →
  qsum (λ p, share corpus g q p) corpus.*1 = g q.
Proof.
  intros Hv Hq. unfold share.
  rewrite qsum_members;
    [|by destruct Hv|by apply eff_links_closed].
  field. apply eff_size_neq_0. by destruct Hv as (_ & ? & _).
Qed.

Lemma inflow_total corpus g :
  valid_graph corpus →
  qsum (inflow corpus g) corpus.*1 = qsum g corpus.*1.
Proof.
  intros Hv. unfold inflow. rewrite qsum_exchange.
  apply qsum_ext. intros q Hq. by apply share_total.
Qed.

Lemma new_rank_total corpus d g :
  valid_graph corpus →
  qsum (new_rank corpus d g) corpus.*1 = (1 - d) + d * qsum g corpus.*1.
Proof.
  intros Hv. unfold new_rank.
  rewrite qsum_plus, qsum_const, qsum_scale, inflow_total by done.
  rewrite length_fmap. pose proof (valid_N_neq_0 corpus Hv). by field.
Qed.

Lemma step_total corpus d r :
  valid_graph corpus → r.*1 = corpus.*1 →
  py_sum (step corpus d r).*2 = (1 - d) + d * py_sum r.*2.
Proof.
  intros Hv Hkeys. unfold step. rewrite py_sum_tab, new_rank_total by done.
  rewrite total_qsum, Hkeys; [done|]. rewrite Hkeys. by destruct Hv.
Qed.

Lemma step_total_1 corpus d r :
  valid_graph corpus → r.*1 = corpus.*1 →
  py_sum r.*2 = 1 → py_sum (step corpus d r).*2 = 1.
Proof. intros Hv Hkeys Hr. rewrite step_total, Hr by done. ring. Qed.

Lemma uniform_keys corpus : (uniform corpus).*1 = corpus.*1.
Proof. apply tab_keys. Qed.

Lemma uniform_total corpus :
  valid_graph corpus → py_sum (uniform corpus).*2 = 1.
Proof.
  intros Hv. unfold uniform. rewrite py_sum_tab, qsum_const, length_fmap.
  pose proof (valid_N_neq_0 corpus Hv). by field.
Qed.

Lemma init_uniform corpus :
  valid_graph corpus →
  dict_comp (λ _, truediv 1 (of_nat (length corpus))) corpus.*1
  = Ret (uniform corpus).
Proof.
  intros Hv. apply dict_comp_tab; [by destruct Hv|].
  intros k _. apply truediv_Ret. by apply valid_N_neq_0.
Qed.

(** *** Ranks stay non-negative *)

Lemma share_nonneg corpus g q p : 0 ≤ g q → 0 ≤ share corpus g q p.
Proof.
  intros Hg. unfold share. destruct (decide (p ∈ eff_links corpus q)); [|done].
  pose proof (of_nat_nonneg (size (eff_links corpus q))) as Hs.
  destruct (decide (of_nat (size (eff_links corpus q)) = 0)) as [->|Hne].
  - unfold Qcdiv. replace (/ 0) with (Q2Qc 0) by by apply Qc_is_canon.
    replace (g q * 0) with (Q2Qc 0) by ring. done.
  - apply Qcdiv_nonneg; [done|]. qc_arith.
Qed.

Lemma new_rank_nonneg corpus d g p :
  corpus ≠ [] → 0 ≤ d → d ≤ 1 → (∀ q, 0 ≤ g q) →
  0 ≤ new_rank corpus d g p.
Proof.
  intros Hne Hd0 Hd1 Hg. unfold new_rank.
  assert (0 ≤ (1 - d) / of_nat (length corpus)).
  { apply Qcdiv_nonneg; [qc_arith|].
    apply of_nat_pos. destruct corpus; [done|simpl; lia]. }
  assert (0 ≤ inflow corpus g p).
  { apply qsum_nonneg. intros q _. by apply share_nonneg. }
  qc_arith.
Qed.

Lemma rank_of_nonneg_tab (f : Page → Qc) (keys : list Page) :
  (∀ p, 0 ≤ f p) → nonneg (tab f keys).
Proof.
  intros Hf p. destruct (decide (p ∈ keys)) as [Hp|Hp].
  - by rewrite rank_of_tab.
  - unfold rank_of. destruct (dict_get p (tab f keys)) eqn:E; try done.
    apply dict_get_Ret_keys in E. by rewrite tab_keys in E.
Qed.

Lemma step_nonneg corpus d r :
  corpus ≠ [] → 0 ≤ d → d ≤ 1 → nonneg r → nonneg (step corpus d r).
Proof.
  intros Hne Hd0 Hd1 Hr. apply rank_of_nonneg_tab.
  intros p. by apply new_rank_nonneg.
Qed.

Lemma uniform_nonneg corpus : corpus ≠ [] → nonneg (uniform corpus).
Proof.
  intros Hne. apply rank_of_nonneg_tab. intros _.
  apply Qcdiv_nonneg; [done|].
  apply of_nat_pos. destruct corpus; [done|simpl; lia].
Qed.
End Sweep.

Section Iterate.
Context {Page : Type} `{!EqDecision Page, !Countable Page}.
Implicit Types (corpus : list (Page * gset Page)) (r : list (Page * Qc)).
Implicit Types (p q page : Page) (d : Qc) (g : Page → Qc).

Lemma good_uniform corpus : valid_graph corpus → good corpus (uniform corpus).
Proof. intros Hv. split; [apply uniform_keys|by apply uniform_total]. Qed.

Lemma good_step corpus d r :
  valid_graph corpus → good corpus r → good corpus (step corpus d r).
Proof.
  intros Hv [Hk Hs]. split; [apply step_keys|by apply step_total_1].
Qed.

(** Whatever the loop returns is the image by a sweep of a rank mapping
    that the sweep moved by at most the threshold, and any property kept by
    sweeps holds of both. *)
Lemma while_inv (I : list (Page * Qc) → Prop) corpus d :
  valid_graph corpus →
  (∀ r, I r → r.*1 = corpus.*1) → (∀ r, I r → I (step corpus d r)) →
  ∀ fuel r, I r →
    match while_not_convergence fuel corpus d (length corpus) r with
    | Ret out =>
        ∃ prev, I prev ∧ out = step corpus d prev
                ∧ settled corpus prev out = true
    | Raise _ => False
    | OutOfFuel => True
    end.
Proof.
  intros (Hnd & Hne & Hcl) Hkeys Hstep.
  induction fuel as [|fuel IH]; intros r Hr; [done|].
  rewrite while_unfold by auto.
  destruct (settled corpus r (step corpus d r)) eqn:E.
  - by exists r.
  - apply IH. by apply Hstep.
Qed.

Lemma while_good corpus d fuel r out :
  valid_graph corpus → good corpus r →
  while_not_convergence fuel corpus d (length corpus) r = Ret out →
  good corpus out.
Proof.
  intros Hv Hr Hw.
  pose proof (while_inv (good corpus) corpus d Hv (λ r H, proj1 H)
                (λ r, good_step corpus d r Hv) fuel r Hr) as Hi.
  rewrite Hw in Hi. destruct Hi as (prev & Hp & -> & _).
  by apply good_step.
Qed.

Lemma iterate_from_while corpus d fuel r :
  valid_graph corpus → good corpus r →
  iterate_from fuel corpus d r
  = while_not_convergence fuel corpus d (length corpus) r.
Proof.
  intros Hv Hr. unfold iterate_from.
  destruct (while_not_convergence _ _ _ _ _) as [out| |] eqn:E; try done.
  simpl. destruct (while_good _ _ _ _ _ Hv Hr E) as [Hk Hs].
  apply normalize_id; [|done]. rewrite Hk. by destruct Hv.
Qed.

Lemma iterate_pagerank_while corpus d fuel :
  valid_graph corpus →
  iterate_pagerank fuel corpus d
  = while_not_convergence fuel corpus d (length corpus) (uniform corpus).
Proof.
  intros Hv. unfold iterate_pagerank. rewrite init_uniform by done.
  simpl. apply iterate_from_while; [done|by apply good_uniform].
Qed.

(** More fuel does not change a result. *)
Lemma while_fuel_mono corpus d N fuel fuel' r out :
  (fuel ≤ fuel')%nat →
  while_not_convergence fuel corpus d N r = Ret out →
  while_not_convergence fuel' corpus d N r = Ret out.
Proof.
  revert fuel' r. induction fuel as [|fuel IH]; intros fuel' r Hle; [done|].
  destruct fuel' as [|fuel']; [lia|]. simpl.
  destruct (sweep corpus d N r) as [[new c]| |]; simpl; try done.
  destruct c; [done|]. apply IH. lia.
Qed.

Lemma iterate_fuel_mono corpus d fuel fuel' out :
  (fuel ≤ fuel')%nat →
  iterate_pagerank fuel corpus d = Ret out →
  iterate_pagerank fuel' corpus d = Ret out.
Proof.
  intros Hle. unfold iterate_pagerank, iterate_from.
  destruct (dict_comp _ _) as [r0| |]; simpl; try done.
  destruct (while_not_convergence fuel _ _ _ _) as [r1| |] eqn:E;
    simpl; try done.
  rewrite (while_fuel_mono _ _ _ fuel fuel' _ r1 Hle E). done.
Qed.

(** *** The specification's wording against the code *)

Lemma spec_new_rank_eq corpus d r p :
  valid_graph corpus → p ∈ corpus.*1 →
  spec_new_rank corpus d r p = new_rank corpus d (rank_of r) p.
Proof.
  intros Hv Hp. pose proof Hv as (Hnd & Hne & Hcl).
  unfold spec_new_rank, new_rank, inflow. do 2 f_equal.
  rewrite !qsum_filter, <-qsum_plus. apply qsum_ext. intros q Hq.
  unfold share, eff_links.
  destruct (decide (links_of corpus q ≠ ∅)) as [Hl|Hl].
  - rewrite (decide_False (P := links_of corpus q = ∅)) by done.
    destruct (decide (p ∈ links_of corpus q)); ring.
  - apply dec_stable in Hl. rewrite Hl.
    rewrite (decide_False (P := p ∈ ∅)) by set_solver.
    rewrite (decide_True (P := ∅ = ∅)) by done.
    rewrite decide_True by by apply elem_of_list_to_set.
    rewrite size_keys, length_fmap by done. ring.
Qed.

Lemma spec_sweep_eq corpus d r :
  valid_graph corpus → spec_sweep corpus d r = step corpus d r.
Proof.
  intros Hv. apply tab_ext. intros p Hp. by apply spec_new_rank_eq.
Qed.

Lemma spec_stop_eq corpus old new :
  spec_stop corpus old new = settled corpus old new.
Proof.
  unfold spec_stop, settled.
  induction (corpus.*1) as [|p l IH]; [done|]. simpl.
  rewrite negb_orb, IH. f_equal.
  fold threshold.
  destruct (decide (threshold < Qcabs (rank_of new p - rank_of old p)))
    as [Hlt|Hge].
  - rewrite bool_decide_eq_true_2 by done.
    rewrite bool_decide_eq_false_2; [done|by apply Qclt_not_le].
  - rewrite bool_decide_eq_false_2 by done.
    rewrite bool_decide_eq_true_2; [done|by apply Qcnot_lt_le].
Qed.

Lemma spec_loop_eq corpus d fuel r :
  valid_graph corpus → r.*1 = corpus.*1 →
  spec_loop fuel corpus d r
  = while_not_convergence fuel corpus d (length corpus) r.
Proof.
  intros Hv. pose proof Hv as (Hnd & Hne & Hcl). revert r.
  induction fuel as [|fuel IH]; intros r Hk; [done|].
  rewrite while_unfold by done. cbn [spec_loop].
  rewrite spec_sweep_eq, spec_stop_eq by done.
  destruct (settled _ _ _); [done|]. apply IH, step_keys.
Qed.

Lemma spec_normalize_eq r :
  NoDup r.*1 → py_sum r.*2 ≠ 0 → normalize r = Ret (spec_normalize r).
Proof.
  intros Hnd Hs. rewrite normalize_tab by done. f_equal.
  unfold spec_normalize. rewrite <-(py_sum_fmap snd r).
  set (t := py_sum r.*2).
  trans ((λ pv : Page * Qc, (pv.1, pv.2 / t)) <$> tab (rank_of r) r.*1);
    [|by rewrite <-ranks_is_tab].
  unfold tab. symmetry.
  etrans; [symmetry; apply list_fmap_compose|]. reflexivity.
Qed.
End Iterate.

(** ** Powers of the damping factor *)

Lemma this_of_Z (z : Z) : this (Qc_of_Z z) = inject_Z z.
Proof. done. Qed.

Lemma archimedean (q : Qc) : ∃ k : nat, q ≤ of_nat k.
Proof.
  exists (Z.to_nat (Z.max 0 (Qceiling q))).
  unfold Qcle, of_nat. rewrite this_of_Z, Z2Nat.id by lia.
  eapply Qle_trans; [apply Qle_ceiling|].
  rewrite <-Zle_Qle. lia.
Qed.

Lemma Qcpower_S (d : Qc) (k : nat) : d ^ S k = d * d ^ k.
Proof. done. Qed.

Lemma Qcmult_nonneg (a b : Qc) : 0 ≤ a → 0 ≤ b → 0 ≤ a * b.
Proof. intros Ha Hb. qc_arith. Qed.

Lemma bernoulli (d : Qc) (k : nat) :
  0 ≤ d → d ≤ 1 → (1 + of_nat k * (1 - d)) * d ^ k ≤ 1.
Proof.
  intros Hd0 Hd1. induction k as [|k IH].
  - rewrite of_nat_0. cbn [Qcpower]. qc_arith.
  - rewrite of_nat_S, Qcpower_S.
    pose proof (Qcpower_pos d k Hd0) as He. revert IH He.
    generalize (d ^ k) (of_nat_nonneg k). generalize (of_nat k).
    intros n e Hn IH He.
    apply Qcle_trans with ((1 + n * (1 - d)) * e); [|done].
    assert (d * (1 + (n + 1) * (1 - d)) ≤ 1 + n * (1 - d)) as Hstep.
    { assert (0 ≤ (n + 1) * ((1 - d) * (1 - d))) as Hsq.
      { apply Qcmult_nonneg; [qc_arith|].
        apply Qcmult_nonneg; qc_arith. }
      clear IH He. qc_arith. }
    replace ((1 + (n + 1) * (1 - d)) * (d * e))
      with (d * (1 + (n + 1) * (1 - d)) * e) by ring.
    by apply Qcmult_le_compat_r.
Qed.

Lemma power_small (d C eps : Qc) :
  0 ≤ d → d < 1 → 0 ≤ C → 0 < eps → ∃ k : nat, d ^ k * C ≤ eps.
Proof.
  intros Hd0 Hd1 HC Heps.
  assert (eps * (1 - d) ≠ 0) as Hne by qc_arith.
  destruct (archimedean (C / (eps * (1 - d)))) as [k Hk].
  exists k.
  pose proof (Qcmult_div_r C _ Hne) as E. revert E Hk.
  generalize (C / (eps * (1 - d))). intros q E Hk.
  assert (d ≤ 1) as Hd1' by qc_arith.
  pose proof (bernoulli d k Hd0 Hd1') as Hb.
  pose proof (Qcpower_pos d k Hd0) as He. revert Hb He.
  generalize (d ^ k). revert Hk. generalize (of_nat_nonneg k).
  generalize (of_nat k). intros n Hn Hk e Hb He.
  assert (C ≤ eps * (1 + n * (1 - d))) as HC' by qc_arith.
  assert (e * C ≤ e * (eps * (1 + n * (1 - d)))) as H1.
  { rewrite !(Qcmult_comm e). by apply Qcmult_le_compat_r. }
  assert (eps * ((1 + n * (1 - d)) * e) ≤ eps * 1) as H2.
  { rewrite !(Qcmult_comm eps). apply Qcmult_le_compat_r; [done|].
    by apply Qclt_le_weak. }
  eapply Qcle_trans; [exact H1|].
  replace (e * (eps * (1 + n * (1 - d))))
    with (eps * ((1 + n * (1 - d)) * e)) by ring.
  eapply Qcle_trans; [exact H2|]. rewrite Qcmult_1_r. done.
Qed.

(** ** Sweeps contract the total movement *)

Lemma qsum_minus {A : Type} (f g : A → Qc) (l : list A) :
  qsum (λ x, f x - g x) l = qsum f l - qsum g l.
Proof.
  induction l as [|x l IH]; [by vm_compute|].
  rewrite !qsum_cons, IH. ring.
Qed.

Lemma Qcinv_nonneg (s : Qc) : 0 ≤ s → 0 ≤ / s.
Proof.
  intros Hs. destruct (decide (s = 0)) as [->|Hne]; [done|].
  replace (/ s) with (1 / s) by (unfold Qcdiv; ring).
  apply Qcdiv_nonneg; [done|]. qc_arith.
Qed.

Section Contraction.
Context {Page : Type} `{!EqDecision Page, !Countable Page}.
Implicit Types (corpus : list (Page * gset Page)) (r : list (Page * Qc)).
Implicit Types (p q page : Page) (d : Qc) (g : Page → Qc).

Lemma share_minus corpus g g' q p :
  share corpus g q p - share corpus g' q p
  = share corpus (λ x, g x - g' x) q p.
Proof.
  unfold share. destruct (decide (p ∈ eff_links corpus q)); [|ring].
  unfold Qcdiv. ring.
Qed.

Lemma share_abs corpus g q p :
  Qcabs (share corpus g q p) = share corpus (λ x, Qcabs (g x)) q p.
Proof.
  unfold share. destruct (decide (p ∈ eff_links corpus q));
    [|by apply Qcabs_pos].
  unfold Qcdiv. rewrite Qcabs_Qcmult. f_equal.
  apply Qcabs_pos, Qcinv_nonneg, of_nat_nonneg.
Qed.

Lemma inflow_minus_abs corpus g g' p :
  Qcabs (inflow corpus g p - inflow corpus g' p)
  ≤ inflow corpus (λ x, Qcabs (g x - g' x)) p.
Proof.
  unfold inflow. rewrite <-qsum_minus.
  eapply Qcle_trans; [apply qsum_abs|].
  erewrite qsum_ext; [apply Qcle_refl|]. intros q _. cbv beta.
  by rewrite share_minus, share_abs.
Qed.

Lemma l1_dist_nonneg corpus r r' : 0 ≤ l1_dist corpus r r'.
Proof. apply qsum_nonneg. intros p _. apply Qcabs_nonneg. Qed.

Lemma l1_contract corpus d r r' :
  valid_graph corpus → 0 ≤ d →
  l1_dist corpus (step corpus d r) (step corpus d r')
  ≤ d * l1_dist corpus r r'.
Proof.
  intros Hv Hd. unfold l1_dist at 1.
  apply Qcle_trans with
    (qsum (λ p, d * inflow corpus
                    (λ x, Qcabs (rank_of r x - rank_of r' x)) p) corpus.*1).
  - apply qsum_le. intros p Hp. unfold step. rewrite !rank_of_tab by done.
    unfold new_rank.
    replace ((1 - d) / of_nat (length corpus) + d * inflow corpus (rank_of r) p
             - ((1 - d) / of_nat (length corpus)
                + d * inflow corpus (rank_of r') p))
      with (d * (inflow corpus (rank_of r) p - inflow corpus (rank_of r') p))
      by ring.
    rewrite Qcabs_Qcmult, (Qcabs_pos d) by done.
    rewrite !(Qcmult_comm d). apply Qcmult_le_compat_r; [|done].
    apply inflow_minus_abs.
  - rewrite qsum_scale, inflow_total by done. done.
Qed.

Lemma settled_of_l1 corpus d r :
  l1_dist corpus (step corpus d r) r ≤ threshold →
  settled corpus r (step corpus d r) = true.
Proof.
  intros Hl. unfold settled. apply forallb_forall. intros p Hp.
  apply list_elem_of_In in Hp. apply bool_decide_eq_true_2.
  eapply Qcle_trans; [|exact Hl]. unfold l1_dist.
  apply (qsum_elem_le
           (λ p, Qcabs (rank_of (step corpus d r) p - rank_of r p)));
    [|done].
  intros y _. apply Qcabs_nonneg.
Qed.

Lemma l1_of_settled corpus old new :
  settled corpus old new = true →
  l1_dist corpus new old ≤ of_nat (length corpus) * threshold.
Proof.
  intros Hs. unfold settled in Hs. rewrite forallb_forall in Hs.
  unfold l1_dist. rewrite <-(length_fmap fst corpus), <-qsum_const.
  apply qsum_le. intros p Hp. apply list_elem_of_In in Hp.
  by apply Hs, bool_decide_eq_true_1 in Hp.
Qed.

(** Once [d ^ k] times the movement of the next sweep is below the
    threshold, [k + 1] sweeps are enough. *)
Lemma while_terminates corpus d :
  valid_graph corpus → 0 ≤ d →
  ∀ (k : nat) r, r.*1 = corpus.*1 →
    d ^ k * l1_dist corpus (step corpus d r) r ≤ threshold →
    ∃ out, while_not_convergence (S k) corpus d (length corpus) r = Ret out.
Proof.
  intros Hv Hd. pose proof Hv as (Hnd & Hne & Hcl).
  induction k as [|k IH]; intros r Hk Hsmall.
  - rewrite while_unfold by done.
    rewrite settled_of_l1; [by eexists|].
    cbn [Qcpower] in Hsmall. by rewrite Qcmult_1_l in Hsmall.
  - rewrite while_unfold by done.
    destruct (settled corpus r (step corpus d r)); [by eexists|].
    apply IH; [apply step_keys|].
    pose proof (l1_contract corpus d (step corpus d r) r Hv Hd) as Hc.
    pose proof (Qcpower_pos d k Hd) as He.
    rewrite Qcpower_S in Hsmall. revert Hsmall Hc He.
    generalize (d ^ k) (l1_dist corpus (step corpus d r) r)
      (l1_dist corpus (step corpus d (step corpus d r)) (step corpus d r)).
    intros e B A Hsmall Hc He.
    apply Qcle_trans with (e * (d * B)).
    + rewrite !(Qcmult_comm e). by apply Qcmult_le_compat_r.
    + by replace (e * (d * B)) with (d * e * B) by ring.
Qed.

Lemma while_converges corpus d r :
  valid_graph corpus → 0 ≤ d → d < 1 → r.*1 = corpus.*1 →
  ∃ fuel out,
    while_not_convergence fuel corpus d (length corpus) r = Ret out.
Proof.
  intros Hv Hd0 Hd1 Hk.
  destruct (power_small d (l1_dist corpus (step corpus d r) r) threshold)
    as [k Hsmall]; [done|done|apply l1_dist_nonneg|done|].
  exists (S k). by apply while_terminates.
Qed.
End Contraction.

(** ** Drawing pages *)

Lemma Qc_of_Z_plus (a b : Z) : Qc_of_Z (a + b) = Qc_of_Z a + Qc_of_Z b.
Proof.
  apply Qc_eq_iff. rewrite this_plus, !this_of_Z, inject_Z_plus. reflexivity.
Qed.

Lemma Qc_of_Z_nonneg (a : Z) : (0 ≤ a)%Z → 0 ≤ Qc_of_Z a.
Proof.
  intros Ha. change (inject_Z 0 <= inject_Z a)%Q. by rewrite <-Zle_Qle.
Qed.

Lemma Qc_of_Z_pos (a : Z) : (0 < a)%Z → 0 < Qc_of_Z a.
Proof.
  intros Ha. change (inject_Z 0 < inject_Z a)%Q. by rewrite <-Zlt_Qlt.
Qed.

Lemma accumulate_from_length (acc : Qc) (l : list Qc) :
  length (accumulate_from acc l) = length l.
Proof. revert acc. induction l as [|w l IH]; intros acc; simpl; auto. Qed.

Lemma accumulate_length (l : list Qc) : length (accumulate l) = length l.
Proof. destruct l; simpl; [done|by rewrite accumulate_from_length]. Qed.

Lemma accumulate_from_last (acc : Qc) (l : list Qc) :
  last (acc :: accumulate_from acc l) = Some (acc + qsum id l).
Proof.
  revert acc. induction l as [|w l IH]; intros acc.
  - simpl. f_equal. change (qsum id []) with (Q2Qc 0). ring.
  - cbn [accumulate_from]. rewrite last_cons_cons, IH, qsum_cons.
    f_equal. unfold id at 2. ring.
Qed.

Lemma accumulate_last (l : list Qc) :
  l ≠ [] → last (accumulate l) = Some (qsum id l).
Proof.
  destruct l as [|w l]; [done|intros _]. cbn [accumulate].
  by rewrite accumulate_from_last, qsum_cons.
Qed.

Lemma bisect_le (a : list Qc) (x : Qc) (hi : nat) : (bisect a x hi ≤ hi)%nat.
Proof.
  revert a. induction hi as [|hi IH]; intros [|c a]; simpl; try lia.
  destruct (decide (x < c)); [lia|]. specialize (IH a). lia.
Qed.

Section Draw.
Context {Page : Type} `{!EqDecision Page, !Countable Page}.
Context {G : Type} `{!Random G}.
Implicit Types (corpus : list (Page * gset Page)) (g : G).

Lemma choice_ok g (l : list Page) :
  l ≠ [] → ∃ x g', choice g l = Ret (x, g') ∧ x ∈ l.
Proof.
  intros Hl. unfold choice. rewrite decide_False by done.
  pose proof (randbelow_lt g (length l)) as Hlt.
  destruct (randbelow g (length l)) as [i g'] eqn:E. simpl in Hlt.
  destruct (l !! i) as [x|] eqn:Hi.
  - exists x, g'. split; [done|]. by eapply list_elem_of_lookup_2.
  - apply lookup_ge_None in Hi. destruct l; [done|]. simpl in *. lia.
Qed.

Lemma choices_ok g (population : list Page) (weights : list Qc) :
  population ≠ [] → length weights = length population →
  0 < qsum id weights →
  ∃ x g', choices g population weights = Ret (x, g') ∧ x ∈ population.
Proof.
  intros Hp Hlen Htot. unfold choices.
  rewrite decide_False by (rewrite accumulate_length; lia).
  rewrite accumulate_last by (intros ->; by destruct population).
  rewrite decide_False by by apply Qclt_not_le.
  destruct (random g) as [u g'].
  pose proof (bisect_le (accumulate weights) (u * qsum id weights)
                (length population - 1)) as Hb.
  destruct (population !! _) as [x|] eqn:Hi.
  - exists x, g'. split; [done|]. by eapply list_elem_of_lookup_2.
  - apply lookup_ge_None in Hi. destruct population; [done|].
    simpl in *. lia.
Qed.

(** *** The visit counters *)

Lemma dict_set_tab {V : Type} (f : Page → V) (keys : list Page) k v :
  NoDup keys → k ∈ keys →
  dict_set k v (tab f keys) = tab (λ p, if decide (p = k) then v else f p) keys.
Proof.
  induction keys as [|k' keys IH]; [by intros _ ?%elem_of_nil|].
  rewrite NoDup_cons. intros [Hk' Hnd] Hk. cbn [tab fmap list_fmap dict_set].
  destruct (decide (k = k')) as [->|Hne].
  - rewrite decide_True by done. f_equal.
    apply tab_ext. intros p Hp. rewrite decide_False; [done|].
    intros ->. done.
  - rewrite (decide_False (P := k' = k)) by done. f_equal.
    apply IH; [done|]. apply elem_of_cons in Hk as [?|?]; done.
Qed.

Lemma qsum_bump (cnt : Page → Z) (keys : list Page) k :
  NoDup keys → k ∈ keys →
  qsum (λ p, Qc_of_Z (if decide (p = k) then cnt k + 1 else cnt p)%Z) keys
  = qsum (λ p, Qc_of_Z (cnt p)) keys + 1.
Proof.
  intros Hnd Hk.
  rewrite (qsum_ext _ (λ p, Qc_of_Z (cnt p)
                            + (if decide (p ∈ ({[k]} : gset Page))
                               then 1 else 0))).
  - rewrite qsum_plus, qsum_members; [|done|].
    + rewrite size_singleton. by f_equal.
    + intros x ->%elem_of_singleton. by apply elem_of_list_to_set.
  - intros p _. destruct (decide (p = k)) as [->|Hne].
    + rewrite decide_True by by apply elem_of_singleton.
      by rewrite Qc_of_Z_plus.
    + rewrite decide_False by by rewrite elem_of_singleton. ring.
Qed.

Lemma sample_step_inv corpus d m st :
  valid_graph corpus → sample_inv corpus m st →
  ∃ st', sample_step corpus d st = Ret st' ∧ sample_inv corpus (m + 1) st'.
Proof.
  intros Hv (cnt & Hc & Hpos & Hsum & Hcur).
  pose proof Hv as (Hnd & Hne & Hcl).
  destruct st as [[counts cur] g]. simpl in Hc, Hcur. subst counts.
  unfold sample_step. rewrite dict_get_tab by done. cbn [mbind result_bind].
  rewrite transition_model_tab by done. cbn [mbind result_bind].
  rewrite tab_keys, tab_values.
  destruct (choices_ok g corpus.*1
              (transition_prob corpus cur d <$> corpus.*1))
    as (x & g' & Hch & Hx).
  - by destruct corpus.
  - by rewrite length_fmap.
  - rewrite qsum_fmap.
    change (λ y : Page, id (transition_prob corpus cur d y))
      with (transition_prob corpus cur d).
    by rewrite transition_prob_total.
  - rewrite Hch. cbn [mbind result_bind]. eexists. split; [done|].
    exists (λ p, if decide (p = cur) then cnt cur + 1 else cnt p)%Z.
    simpl. split_and!.
    + by apply dict_set_tab.
    + intros p. pose proof (Hpos p). pose proof (Hpos cur).
      destruct (decide (p = cur)); lia.
    + by rewrite qsum_bump, Hsum, Qc_of_Z_plus.
    + done.
Qed.

Lemma sample_loop_inv corpus d (l : list nat) m st :
  valid_graph corpus → sample_inv corpus m st →
  ∃ st', foldM (λ st _, sample_step corpus d st) st l = Ret st'
         ∧ sample_inv corpus (m + Z.of_nat (length l)) st'.
Proof.
  intros Hv. revert m st. induction l as [|i l IH]; intros m st Hst.
  - exists st. split; [done|]. simpl. by rewrite Z.add_0_r.
  - destruct (sample_step_inv corpus d m st Hv Hst) as (st1 & E1 & H1).
    destruct (IH _ _ H1) as (st2 & E2 & H2).
    exists st2. cbn [foldM]. rewrite E1. cbn [mbind result_bind].
    split; [done|].
    by replace (m + Z.of_nat (length (i :: l)))%Z
      with (m + 1 + Z.of_nat (length l))%Z by (simpl; lia).
Qed.

Lemma sample_pagerank_tab corpus d g n :
  valid_graph corpus → n ≠ 0%Z →
  ∃ cnt : Page → Z,
    sample_pagerank g corpus d n
    = Ret (tab (λ p, Qc_of_Z (cnt p) / Qc_of_Z n) corpus.*1)
    ∧ (∀ p, 0 ≤ cnt p)%Z
    ∧ qsum (λ p, Qc_of_Z (cnt p)) corpus.*1 = Qc_of_Z (Z.of_nat (Z.to_nat n)).
Proof.
  intros Hv Hn. pose proof Hv as (Hnd & Hne & Hcl).
  unfold sample_pagerank.
  rewrite (dict_comp_tab _ (λ _, 0%Z)) by done. cbn [mbind result_bind].
  destruct (choice_ok g corpus.*1) as (cur & g' & Hch & Hcur);
    [by destruct corpus|].
  rewrite Hch. cbn [mbind result_bind].
  destruct (sample_loop_inv corpus d (seq 0 (Z.to_nat n)) 0
              (tab (λ _, 0%Z) corpus.*1, cur, g') Hv)
    as ([[counts cur'] g''] & Hloop & cnt & Hc & Hpos & Hsum & _).
  { exists (λ _, 0%Z). simpl. split_and!; [done|done| |done].
    rewrite qsum_const. replace (Qc_of_Z 0) with (Q2Qc 0) by by apply Qc_is_canon.
    ring. }
  rewrite Hloop. cbn [mbind result_bind]. simpl in Hc. subst counts.
  exists cnt. rewrite length_seq, Z.add_0_l in Hsum. split_and!; [|done|done].
  apply dict_comp_tab; [done|]. intros p Hp.
  rewrite dict_get_tab by done. cbn [mbind result_bind].
  apply truediv_Ret. intros E. apply Hn.
  apply Qc_eq_iff in E. change (inject_Z n == inject_Z 0)%Q in E.
  by apply (proj1 (inject_Z_injective n 0)) in E.
Qed.
End Draw.

Section Results.
Context {Page : Type} `{!EqDecision Page, !Countable Page}.
Implicit Types (corpus : list (Page * gset Page)) (r : list (Page * Qc)).
Implicit Types (p q page : Page) (d : Qc).

Lemma Forall_tab_nonneg (f : Page → Qc) (keys : list Page) :
  (∀ p, p ∈ keys → 0 ≤ f p) → Forall (λ pv, 0 ≤ pv.2) (tab f keys).
Proof.
  intros Hf. unfold tab. apply Forall_fmap, Forall_forall.
  intros p Hp. by apply Hf.
Qed.

Lemma while_never_raises corpus d fuel r e :
  valid_graph corpus → good corpus r →
  while_not_convergence fuel corpus d (length corpus) r ≠ Raise e.
Proof.
  intros Hv Hr Hw.
  pose proof (while_inv (good corpus) corpus d Hv (λ r H, proj1 H)
                (λ r, good_step corpus d r Hv) fuel r Hr) as Hi.
  by rewrite Hw in Hi.
Qed.

Lemma iterate_never_raises corpus d fuel e :
  valid_graph corpus → iterate_pagerank fuel corpus d ≠ Raise e.
Proof.
  intros Hv. rewrite iterate_pagerank_while by done.
  apply while_never_raises; [done|by apply good_uniform].
Qed.

Lemma while_rank_mapping corpus d fuel out :
  valid_graph corpus → 0 ≤ d → d ≤ 1 →
  while_not_convergence fuel corpus d (length corpus) (uniform corpus)
  = Ret out →
  rank_mapping corpus out.
Proof.
  intros Hv Hd0 Hd1 Hw. pose proof Hv as (Hnd & Hne & Hcl).
  pose proof (while_inv (λ r, good corpus r ∧ nonneg r) corpus d Hv
                (λ r H, proj1 (proj1 H))) as Hi.
  specialize (Hi (λ r H, conj (good_step corpus d r Hv (proj1 H))
                           (step_nonneg corpus d r Hne Hd0 Hd1 (proj2 H)))).
  specialize (Hi fuel (uniform corpus)
                (conj (good_uniform corpus Hv) (uniform_nonneg corpus Hne))).
  rewrite Hw in Hi. destruct Hi as (prev & [Hg Hn] & -> & _).
  destruct (good_step corpus d prev Hv Hg) as [Hk Hs].
  split_and!; [done| |done].
  apply Forall_tab_nonneg. intros p _. apply new_rank_nonneg; try done.
Qed.

Lemma iterate_converges corpus d :
  valid_graph corpus → 0 ≤ d → d < 1 →
  ∃ fuel out, iterate_pagerank fuel corpus d = Ret out.
Proof.
  intros Hv Hd0 Hd1.
  destruct (while_converges corpus d (uniform corpus) Hv Hd0 Hd1
              (uniform_keys corpus)) as (fuel & out & Hw).
  exists fuel, out. by rewrite iterate_pagerank_while.
Qed.

Lemma settled_refl corpus r : settled corpus r r = true.
Proof.
  unfold settled. apply forallb_forall. intros p _.
  apply bool_decide_eq_true_2.
  replace (rank_of r p - rank_of r p) with (Q2Qc 0) by ring. done.
Qed.

(** *** The single-page graph *)

Lemma single_valid (a : Page) : valid_graph ((a, ∅) :: nil).
Proof.
  split_and!; [|done|].
  - apply NoDup_singleton.
  - apply Forall_singleton. set_solver.
Qed.

Lemma single_good (a : Page) r :
  good ((a, ∅) :: nil) r → r = (a, 1) :: nil.
Proof.
  intros [Hk Hs]. destruct r as [|[a' v] [|? ?]]; try done.
  simpl in Hk. injection Hk as ->. do 2 f_equal.
  unfold py_sum in Hs. simpl in Hs. rewrite <-Hs. ring.
Qed.

Lemma single_iterate (a : Page) d fuel :
  iterate_pagerank (S fuel) ((a, ∅) :: nil) d = Ret ((a, 1) :: nil).
Proof.
  pose proof (single_valid a) as Hv. pose proof Hv as (Hnd & Hne & Hcl).
  rewrite iterate_pagerank_while by done.
  pose proof (good_uniform _ Hv) as Hu.
  pose proof (good_step _ d _ Hv Hu) as Hs.
  apply single_good in Hu, Hs.
  rewrite while_unfold by (done || apply uniform_keys).
  by rewrite Hs, Hu, settled_refl.
Qed.
End Results.

Section SamplerResults.
Context {Page : Type} `{!EqDecision Page, !Countable Page}.
Context {G : Type} `{!Random G}.
Implicit Types (corpus : list (Page * gset Page)) (g : G) (d : Qc).

Lemma sample_rank_mapping corpus d g n :
  valid_graph corpus → (1 ≤ n)%Z →
  ∃ out, sample_pagerank g corpus d n = Ret out ∧ rank_mapping corpus out.
Proof.
  intros Hv Hn.
  destruct (sample_pagerank_tab corpus d g n Hv) as (cnt & -> & Hpos & Hsum);
    [lia|].
  rewrite Z2Nat.id in Hsum by lia.
  assert (0 < Qc_of_Z n) as Hn' by (apply Qc_of_Z_pos; lia).
  eexists. split; [done|]. split_and!.
  - apply tab_keys.
  - apply Forall_tab_nonneg. intros p _.
    apply Qcdiv_nonneg; [by apply Qc_of_Z_nonneg|done].
  - rewrite py_sum_tab.
    rewrite (qsum_ext _ (λ p, / Qc_of_Z n * Qc_of_Z (cnt p)))
      by (intros; unfold Qcdiv; ring).
    rewrite qsum_scale, Hsum. field. qc_arith.
Qed.

Lemma sample_nonpos corpus d g n :
  valid_graph corpus → (n < 0)%Z →
  sample_pagerank g corpus d n = Ret (tab (λ _, 0) corpus.*1).
Proof.
  intros Hv Hn. pose proof Hv as (Hnd & Hne & Hcl).
  unfold sample_pagerank.
  rewrite (dict_comp_tab _ (λ _, 0%Z)) by done. cbn [mbind result_bind].
  destruct (choice_ok g corpus.*1) as (cur & g' & -> & Hcur);
    [by destruct corpus|].
  cbn [mbind result_bind].
  replace (Z.to_nat n) with O by lia. cbn [seq foldM mbind result_bind].
  apply dict_comp_tab; [done|]. intros p Hp.
  rewrite dict_get_tab by done. cbn [mbind result_bind].
  rewrite truediv_Ret.
  - f_equal. unfold Qcdiv. replace (Qc_of_Z 0) with (Q2Qc 0)
      by by apply Qc_is_canon.
    ring.
  - assert (0 < Qc_of_Z (- n)) as H0 by (apply Qc_of_Z_pos; lia).
    intros E. replace (- n)%Z with (0 - n)%Z in H0 by lia.
    assert (Qc_of_Z (0 - n) + Qc_of_Z n = 0) as E'.
    { rewrite <-Qc_of_Z_plus. replace (0 - n + n)%Z with 0%Z by lia.
      by apply Qc_is_canon. }
    rewrite E in E'. qc_arith.
Qed.

Lemma sample_zero corpus d g :
  valid_graph corpus →
  sample_pagerank g corpus d 0 = Raise ZeroDivisionError.
Proof.
  intros Hv. pose proof Hv as (Hnd & Hne & Hcl).
  unfold sample_pagerank.
  rewrite (dict_comp_tab _ (λ _, 0%Z)) by done. cbn [mbind result_bind].
  destruct (choice_ok g corpus.*1) as (cur & g' & -> & Hcur);
    [by destruct corpus|].
  change (Z.to_nat 0) with O. cbn [mbind result_bind seq foldM].
  destruct (corpus.*1) as [|k keys] eqn:Ek; [by destruct corpus|].
  unfold dict_comp. cbn [foldM].
  rewrite dict_get_tab by (apply elem_of_cons; by left).
  cbn [mbind result_bind]. unfold truediv.
  rewrite decide_True by by apply Qc_is_canon. done.
Qed.

Lemma single_sample (a : Page) d g n :
  (1 ≤ n)%Z →
  sample_pagerank g ((a, ∅) :: nil) d n = Ret ((a, 1) :: nil).
Proof.
  intros Hn.
  destruct (sample_pagerank_tab ((a, ∅) :: nil) d g n (single_valid a))
    as (cnt & -> & Hpos & Hsum); [lia|].
  rewrite Z2Nat.id in Hsum by lia. f_equal. simpl. do 2 f_equal.
  simpl in Hsum. rewrite Qcplus_0_r in Hsum. rewrite Hsum.
  field. assert (0 < Qc_of_Z n) by (apply Qc_of_Z_pos; lia). qc_arith.
Qed.
End SamplerResults.

(** * The claims *)

Section Claims.
Context {Page : Type} `{!EqDecision Page, !Countable Page}.
Implicit Types (corpus : list (Page * gset Page)) (r : list (Page * Qc)).
Implicit Types (p q page : Page) (d : Qc).

(** C1.  On a valid graph with damping factor in [0,1], [iterate_pagerank]
    is the algorithm of section 4.3: ranks start at 1/N, every sweep computes
    (1-d)/N + d * (sum of rank(q)/L(q) over the pages linking to p, plus
    rank(q)/N for every page q without links) from the previous mapping,
    the loop stops when no rank moved by more than 0.001, and the result is
    divided by its sum.  The returned ranks add up to exactly 1, and for
    d < 1 a result is returned. *)
Theorem iterate_pagerank_follows_spec corpus d fuel :
  valid_graph corpus → 0 ≤ d → d ≤ 1 →
  iterate_pagerank fuel corpus d = spec_iterate fuel corpus d
  ∧ (∀ out, iterate_pagerank fuel corpus d = Ret out → py_sum out.*2 = 1)
  ∧ (d < 1 → ∃ fuel' out, iterate_pagerank fuel' corpus d = Ret out).
Proof.
  intros Hv Hd0 Hd1. pose proof Hv as (Hnd & Hne & Hcl). split_and!.
  - unfold iterate_pagerank, iterate_from, spec_iterate.
    rewrite init_uniform by done. cbn [mbind result_bind].
    rewrite spec_loop_eq by (done || apply uniform_keys).
    change (spec_init corpus) with (uniform corpus).
    destruct (while_not_convergence _ _ _ _ _) as [out| |] eqn:E; try done.
    cbn [mbind result_bind].
    destruct (while_good _ _ _ _ _ Hv (good_uniform _ Hv) E) as [Hk Hs].
    apply spec_normalize_eq; [by rewrite Hk|]. rewrite Hs. done.
  - intros out. rewrite iterate_pagerank_while by done. intros E.
    by destruct (while_good _ _ _ _ _ Hv (good_uniform _ Hv) E).
  - intros Hlt. by apply iterate_converges.
Qed.

(** C2.  For a page of a non-empty corpus, [transition_model] returns a
    distribution over the pages of the corpus: with L >= 1 links, every
    page gets (1-d)/N and every linked page d/L on top of it; with no link,
    every page gets 1/N. *)
Theorem transition_model_correct corpus page (links : gset Page) d :
  NoDup corpus.*1 → (page, links) ∈ corpus →
  ∃ dist,
    transition_model corpus page d = Ret dist ∧ dist.*1 = corpus.*1
    ∧ (links ≠ ∅ → ∀ p, p ∈ corpus.*1 →
         dict_get p dist
         = Ret ((1 - d) / of_nat (length corpus)
                + (if decide (p ∈ links) then d / of_nat (size links) else 0)))
    ∧ (links = ∅ → ∀ p, p ∈ corpus.*1 →
         dict_get p dist = Ret (1 / of_nat (length corpus))).
Proof.
  intros Hnd Hin.
  assert (page ∈ corpus.*1) as Hpage.
  { apply list_elem_of_fmap. by exists (page, links). }
  assert (corpus ≠ []) as Hne by (intros ->; by apply elem_of_nil in Hin).
  exists (tab (transition_prob corpus page d) corpus.*1).
  rewrite transition_model_tab, tab_keys by done.
  unfold transition_prob. rewrite (links_of_elem corpus page links) by done.
  split_and!; [done|done| |].
  - intros Hl p Hp. rewrite dict_get_tab by done.
    by rewrite (decide_True (P := links ≠ ∅)).
  - intros Hl p Hp. rewrite dict_get_tab by done.
    rewrite (decide_False (P := links ≠ ∅)); [done|]. by intros ?.
Qed.

(** C3.  On a valid graph, for a page of the graph and a damping factor in
    [0,1], the distribution returned by [transition_model] has no negative
    probability and its probabilities add up to exactly 1. *)
Theorem transition_model_distribution corpus page d :
  valid_graph corpus → page ∈ corpus.*1 → 0 ≤ d → d ≤ 1 →
  ∃ dist,
    transition_model corpus page d = Ret dist ∧ dist.*1 = corpus.*1
    ∧ Forall (λ pv, 0 ≤ pv.2) dist ∧ py_sum dist.*2 = 1.
Proof.
  intros Hv Hpage Hd0 Hd1. pose proof Hv as (Hnd & Hne & Hcl).
  exists (tab (transition_prob corpus page d) corpus.*1).
  rewrite transition_model_tab, tab_keys, py_sum_tab by done.
  split_and!; [done|done| |by apply transition_prob_total].
  apply Forall_tab_nonneg. intros p _. by apply transition_prob_nonneg.
Qed.

(** C5, as the code has it.  For a damping factor between 0 and 0.99, the
    loop of [iterate_pagerank] stops on every valid graph: some number of
    sweeps makes the function return.  A sweep shrinks the total movement of
    the ranks by the factor d; the bound 0.99 keeps 1 - d far above the
    rounding of the floating-point numbers the code computes with, which a
    damping factor closer to 1 does not ([binary64_loop_never_stops]
    below). *)
Theorem iterate_pagerank_terminates corpus d :
  valid_graph corpus → 0 ≤ d → d ≤ Q2Qc (99 # 100) →
  ∃ fuel out, iterate_pagerank fuel corpus d = Ret out.
Proof.
  intros Hv Hd0 Hd1. apply iterate_converges; [done|done|].
  eapply Qcle_lt_trans; [exact Hd1|by vm_compute].
Qed.

(** C6, as the code has it.  A sweep started from the result of
    [iterate_pagerank] moves the ranks by at most d * N * 0.001 in total;
    the rerun stops after that one sweep when d * N <= 1, and after
    finitely many sweeps when d is at most 0.99 (see C5 for the bound). *)
Theorem rerun_movement_bounded corpus d fuel out :
  valid_graph corpus → 0 ≤ d → d ≤ 1 →
  iterate_pagerank fuel corpus d = Ret out →
  (∃ new c, sweep corpus d (length corpus) out = Ret (new, c)
     ∧ l1_dist corpus new out ≤ d * (of_nat (length corpus) * threshold))
  ∧ (d * of_nat (length corpus) ≤ 1 →
     ∃ out', iterate_from 1 corpus d out = Ret out')
  ∧ (d ≤ Q2Qc (99 # 100) →
     ∃ fuel' out', iterate_from fuel' corpus d out = Ret out').
Proof.
  intros Hv Hd0 Hd1. pose proof Hv as (Hnd & Hne & Hcl).
  rewrite iterate_pagerank_while by done. intros Hw.
  pose proof (while_inv (good corpus) corpus d Hv (λ r H, proj1 H)
                (λ r, good_step corpus d r Hv) fuel (uniform corpus)
                (good_uniform corpus Hv)) as Hi.
  rewrite Hw in Hi. destruct Hi as (prev & Hprev & -> & Hset).
  pose proof (good_step corpus d prev Hv Hprev) as Hout.
  set (out := step corpus d prev) in *.
  assert (l1_dist corpus (step corpus d out) out
          ≤ d * (of_nat (length corpus) * threshold)) as Hl1.
  { eapply Qcle_trans; [by apply l1_contract|].
    rewrite !(Qcmult_comm d). apply Qcmult_le_compat_r; [|done].
    by apply l1_of_settled. }
  split_and!.
  - exists (step corpus d out), (settled corpus out (step corpus d out)).
    split; [|done]. apply sweep_step; [done|done|apply Hout].
  - intros HdN. rewrite iterate_from_while by done.
    rewrite while_unfold by (done || apply Hout).
    rewrite settled_of_l1; [by eexists|].
    eapply Qcle_trans; [exact Hl1|].
    rewrite Qcmult_assoc, <-(Qcmult_1_l threshold) at 1.
    rewrite <-(Qcmult_1_l threshold) at 2.
    apply Qcmult_le_compat_r; [done|]. by vm_compute.
  - intros Hle.
    assert (d < 1) as Hlt by (eapply Qcle_lt_trans; [exact Hle|by vm_compute]).
    destruct (while_converges corpus d out Hv Hd0 Hlt (proj1 Hout))
      as (fuel' & out' & Hw').
    exists fuel', out'. by rewrite iterate_from_while.
Qed.

(** C10.  On a valid graph with damping factor in [0,1] no division of
    [iterate_pagerank] has a zero divisor: N is not zero; the link set used
    for a page is never empty; a sweep keeps the total rank at least
    (1-d) + d times the previous total, so that the sum dividing the
    converged ranks is positive; and [ZeroDivisionError] is never raised. *)
Theorem iterate_pagerank_divisions_safe corpus d :
  valid_graph corpus → 0 ≤ d → d ≤ 1 →
  of_nat (length corpus) ≠ 0
  ∧ (∀ q, of_nat (size (eff_links corpus q)) ≠ 0)
  ∧ (∀ r new c, r.*1 = corpus.*1 →
       sweep corpus d (length corpus) r = Ret (new, c) →
       (1 - d) + d * py_sum r.*2 ≤ py_sum new.*2)
  ∧ (∀ fuel out,
       while_not_convergence fuel corpus d (length corpus) (uniform corpus)
       = Ret out → 0 < py_sum out.*2)
  ∧ (∀ fuel, iterate_pagerank fuel corpus d ≠ Raise ZeroDivisionError).
Proof.
  intros Hv Hd0 Hd1. pose proof Hv as (Hnd & Hne & Hcl). split_and!.
  - by apply valid_N_neq_0.
  - intros q. by apply eff_size_neq_0.
  - intros r new c Hk. rewrite sweep_step by done. intros [= <- _].
    rewrite step_total by done. apply Qcle_refl.
  - intros fuel out E.
    destruct (while_good _ _ _ _ _ Hv (good_uniform _ Hv) E) as [_ ->].
    by vm_compute.
  - intros fuel. by apply iterate_never_raises.
Qed.
End Claims.

Section SamplerClaims.
Context {Page : Type} `{!EqDecision Page, !Countable Page}.
Context {G : Type} `{!Random G}.
Implicit Types (corpus : list (Page * gset Page)) (g : G) (d : Qc).

(** C4.  On a valid graph, with damping factor in [0,1] and n >= 1,
    [sample_pagerank] returns a rank mapping whose keys are exactly the
    pages of the graph, with no negative rank and ranks adding up to
    exactly 1; so is every rank mapping [iterate_pagerank] returns, and it
    returns one when d < 1. *)
Theorem estimators_return_rank_mappings corpus d g n :
  valid_graph corpus → 0 ≤ d → d ≤ 1 → (1 ≤ n)%Z →
  (∃ out, sample_pagerank g corpus d n = Ret out ∧ rank_mapping corpus out)
  ∧ (∀ fuel out,
       iterate_pagerank fuel corpus d = Ret out → rank_mapping corpus out)
  ∧ (d < 1 →
     ∃ fuel out,
       iterate_pagerank fuel corpus d = Ret out ∧ rank_mapping corpus out).
Proof.
  intros Hv Hd0 Hd1 Hn.
  assert (∀ fuel out,
    iterate_pagerank fuel corpus d = Ret out → rank_mapping corpus out)
    as Hit.
  { intros fuel out. rewrite iterate_pagerank_while by done.
    by apply while_rank_mapping. }
  split_and!; [by apply sample_rank_mapping|done|].
  intros Hlt. destruct (iterate_converges corpus d Hv Hd0 Hlt)
    as (fuel & out & E).
  exists fuel, out. split; [done|]. by eapply Hit.
Qed.

(** C7, as the code has it.  Neither estimator checks its parameters
    before it computes.  On a valid graph and whatever the damping factor,
    in [0,1] or not, [iterate_pagerank] carries out its first sweep from the
    1/N mapping and goes on from the outcome (to the final division when the
    sweep set the convergence flag, to the next sweep otherwise), and
    [transition_model], which [sample_pagerank] calls at each sample, returns
    a distribution for every page.  A sample count below 1 is not rejected
    either: a negative count gives rank 0 to every page, and the count 0
    fails at the final division only, with [ZeroDivisionError]. *)
Theorem estimators_do_not_validate corpus d g :
  valid_graph corpus →
  (∃ new c,
     sweep corpus d (length corpus) (uniform corpus) = Ret (new, c)
     ∧ new.*1 = corpus.*1
     ∧ ∀ fuel, iterate_pagerank (S fuel) corpus d
               = if c then normalize new else iterate_from fuel corpus d new)
  ∧ (∀ page, page ∈ corpus.*1 →
       ∃ dist, transition_model corpus page d = Ret dist
               ∧ dist.*1 = corpus.*1)
  ∧ (∀ n, (n < 0)%Z →
       sample_pagerank g corpus d n = Ret (tab (λ _, 0) corpus.*1))
  ∧ sample_pagerank g corpus d 0 = Raise ZeroDivisionError.
Proof.
  intros Hv. pose proof Hv as (Hnd & Hne & Hcl). split_and!.
  - exists (step corpus d (uniform corpus)),
      (settled corpus (uniform corpus) (step corpus d (uniform corpus))).
    split_and!.
    + apply sweep_step; [done|done|apply uniform_keys].
    + apply step_keys.
    + intros fuel. unfold iterate_pagerank.
      rewrite init_uniform by done. cbn [mbind result_bind].
      unfold iterate_from at 1.
      rewrite while_unfold by (done || apply uniform_keys).
      by destruct (settled _ _ _).
  - intros page Hpage. eexists. split.
    + by apply transition_model_tab.
    + apply tab_keys.
  - intros n Hn. by apply sample_nonpos.
  - by apply sample_zero.
Qed.

(** C8.  On the single-page graph [{a: {}}] both estimators return
    [{a: 1}]: [sample_pagerank] for every sample count n >= 1, and
    [iterate_pagerank] after its first sweep, whatever the damping
    factor. *)
Theorem single_page_rank_one (a : Page) d g n fuel :
  (1 ≤ n)%Z →
  sample_pagerank g ((a, ∅) :: nil) d n = Ret ((a, 1) :: nil)
  ∧ iterate_pagerank (S fuel) ((a, ∅) :: nil) d = Ret ((a, 1) :: nil).
Proof. intros Hn. split; [by apply single_sample|apply single_iterate]. Qed.
End SamplerClaims.

(** ** The example graphs *)

Lemma hub_valid : valid_graph hub_corpus.
Proof. by_evaluation. Defined.

Lemma swap_valid : valid_graph swap_corpus.
Proof. by_evaluation. Defined.

Lemma swap_first : step swap_corpus 1 (uniform swap_corpus) = swap_a.
Proof. by_evaluation. Qed.

Lemma swap_a_b : step swap_corpus 1 swap_a = swap_b.
Proof. by_evaluation. Qed.

Lemma swap_b_a : step swap_corpus 1 swap_b = swap_a.
Proof. by_evaluation. Qed.

Lemma swap_loops (fuel : nat) :
  while_not_convergence fuel swap_corpus 1 3 swap_a = OutOfFuel
  ∧ while_not_convergence fuel swap_corpus 1 3 swap_b = OutOfFuel.
Proof.
  destruct swap_valid as (Hnd & Hne & _).
  induction fuel as [|fuel [IHa IHb]]; [done|].
  change 3%nat with (length swap_corpus) in *. split.
  - rewrite while_unfold, swap_a_b by done.
    replace (settled swap_corpus swap_a swap_b) with false by by vm_compute.
    done.
  - rewrite while_unfold, swap_b_a by done.
    replace (settled swap_corpus swap_b swap_a) with false by by vm_compute.
    done.
Qed.

(** C5, counterexample.  With damping factor 1 on [{A: {B}, B: {A}, C: {A}}]
    the ranks of [A] and [B] swap for ever: no number of sweeps makes
    [iterate_pagerank] return. *)
Lemma swap_corpus_never_converges :
  valid_graph swap_corpus ∧ 0 ≤ 1 ∧ 1 ≤ 1
  ∧ ∀ fuel, iterate_pagerank fuel swap_corpus 1 = OutOfFuel.
Proof.
  split_and!; [apply swap_valid|done|done|].
  intros fuel. rewrite iterate_pagerank_while by apply swap_valid.
  destruct swap_valid as (Hnd & Hne & _).
  destruct fuel as [|fuel]; [done|].
  rewrite while_unfold, swap_first by (done || apply uniform_keys).
  replace (settled swap_corpus (uniform swap_corpus) swap_a) with false
    by by vm_compute.
  apply swap_loops.
Qed.

(** *** Rounding and the loop

    Below 1 but within a rounding unit of it, the damping factor no longer
    makes the binary64 loop contract: on [cycle_corpus], a valid graph, the
    first sweep yields [cycle_a] and from there the sweeps alternate between
    [cycle_a] and [cycle_b], the ranks of [A] and [B] (and of [D] and [E])
    trading 0.25 for 0.125 each time: the product [below_one * 0.25], rounded,
    and the share (1-d)/N added to it give back 0.25.  The loop never
    stops. *)
Lemma cycle_valid : valid_graph cycle_corpus.
Proof. by_evaluation. Qed.

Lemma cycle_first :
  Binary64.initial cycle_corpus
  = Ret ((λ page, (page, 0.125%float)) <$> cycle_corpus.*1)
  ∧ Binary64.sweep cycle_corpus below_one 8
      ((λ page, (page, 0.125%float)) <$> cycle_corpus.*1)
    = Ret (cycle_a, false).
Proof. split; vm_compute; reflexivity. Qed.

Lemma cycle_a_b :
  Binary64.sweep cycle_corpus below_one 8 cycle_a = Ret (cycle_b, false).
Proof. vm_compute; reflexivity. Qed.

Lemma cycle_b_a :
  Binary64.sweep cycle_corpus below_one 8 cycle_b = Ret (cycle_a, false).
Proof. vm_compute; reflexivity. Qed.

Lemma cycle_loops (fuel : nat) :
  Binary64.while_not_convergence fuel cycle_corpus below_one 8 cycle_a
  = OutOfFuel
  ∧ Binary64.while_not_convergence fuel cycle_corpus below_one 8 cycle_b
    = OutOfFuel.
Proof.
  induction fuel as [|fuel [IHa IHb]]; [done|].
  cbn [Binary64.while_not_convergence]. rewrite cycle_a_b, cycle_b_a.
  cbn [mbind result_bind]. by split.
Qed.

Lemma binary64_loop_never_stops :
  valid_graph cycle_corpus
  ∧ PrimFloat.leb 0 below_one = true ∧ PrimFloat.ltb below_one 1 = true
  ∧ ∃ pagerank,
      Binary64.initial cycle_corpus = Ret pagerank
      ∧ ∀ fuel,
          Binary64.while_not_convergence fuel cycle_corpus below_one
            (length cycle_corpus) pagerank
          = OutOfFuel.
Proof.
  destruct cycle_first as [Hi Hs].
  split_and!; [apply cycle_valid|done|done|].
  eexists. split; [exact Hi|].
  change (length cycle_corpus) with 8%nat.
  intros [|fuel]; [done|].
  cbn [Binary64.while_not_convergence]. rewrite Hs.
  cbn [mbind result_bind]. apply cycle_loops.
Qed.

(** With the damping factor 0.99 (the float the literal denotes) the
    binary64 loop on the same graph stops, at its 481st sweep. *)
Lemma binary64_loop_stops :
  ∃ pagerank out,
    Binary64.initial cycle_corpus = Ret pagerank
    ∧ Binary64.while_not_convergence 480 cycle_corpus
        0x1.fae147ae147aep-1%float (length cycle_corpus) pagerank
      = OutOfFuel
    ∧ Binary64.while_not_convergence 481 cycle_corpus
        0x1.fae147ae147aep-1%float (length cycle_corpus) pagerank
      = Ret out.
Proof.
  destruct cycle_first as [Hi _].
  eexists _, _. split_and!; [exact Hi|vm_compute; reflexivity..].
Qed.

(** C6, counterexample.  On [{A: {}, B: {A}, C: {A}, D: {B, C}}] with damping
    factor 0.9, [iterate_pagerank] returns after seven sweeps; started from
    that result, the loop does not stop after one sweep: it needs two. *)
Lemma rerun_needs_second_sweep :
  ∃ out,
    valid_graph hub_corpus
    ∧ iterate_pagerank 7 hub_corpus (Q2Qc (9 # 10)) = Ret out
    ∧ iterate_from 1 hub_corpus (Q2Qc (9 # 10)) out = OutOfFuel
    ∧ ∃ out', iterate_from 2 hub_corpus (Q2Qc (9 # 10)) out = Ret out'.
Proof.
  destruct (iterate_pagerank 7 hub_corpus (Q2Qc (9 # 10))) as [out| |] eqn:E.
  2,3: by vm_compute in E.
  exists out. split_and!; [apply hub_valid|done| |].
  - vm_compute in E. injection E as <-. by vm_compute.
  - vm_compute in E. injection E as <-.
    destruct (iterate_from 2 _ _ _) as [out'| |] eqn:E'.
    2,3: by vm_compute in E'.
    by exists out'.
Qed.

(** C7, counterexample.  A damping factor of 2 is not rejected by
    [iterate_pagerank], nor a sample count of -1 by [sample_pagerank]: both
    return a mapping.  A sample count of 0 ends in the [ZeroDivisionError] of
    the last line, after the counters were set up and the first page
    drawn. *)
Lemma invalid_parameters_accepted :
  iterate_pagerank 1 single_page (Q2Qc 2) = Ret (("A"%string, 1) :: nil)
  ∧ sample_pagerank 42%Z single_page (Q2Qc (1 # 2)) (-1)
    = Ret (("A"%string, 0) :: nil)
  ∧ sample_pagerank 42%Z single_page (Q2Qc 2) 3
    = Ret (("A"%string, 1) :: nil)
  ∧ sample_pagerank 42%Z single_page (Q2Qc (1 # 2)) 0
    = Raise ZeroDivisionError.
Proof. split_and!; by_evaluation. Qed.

(** ** The theorems at concrete inputs *)

Lemma iterate_pagerank_follows_spec_witness :
  iterate_pagerank 7 hub_corpus (Q2Qc (9 # 10))
  = spec_iterate 7 hub_corpus (Q2Qc (9 # 10))
  ∧ (∀ out, iterate_pagerank 7 hub_corpus (Q2Qc (9 # 10)) = Ret out →
       py_sum out.*2 = 1)
  ∧ (Q2Qc (9 # 10) < 1 →
     ∃ fuel' out, iterate_pagerank fuel' hub_corpus (Q2Qc (9 # 10)) = Ret out).
Proof.
  apply (iterate_pagerank_follows_spec hub_corpus (Q2Qc (9 # 10)) 7);
    [apply hub_valid|by vm_compute|by vm_compute].
Defined.

Lemma transition_model_correct_witness :
  ∃ dist,
    transition_model hub_corpus "D"%string (Q2Qc (9 # 10)) = Ret dist
    ∧ dist.*1 = hub_corpus.*1
    ∧ (({["B"; "C"]} : gset string) ≠ ∅ → ∀ p, p ∈ hub_corpus.*1 →
         dict_get p dist
         = Ret ((1 - Q2Qc (9 # 10)) / of_nat (length hub_corpus)
                + (if decide (p ∈ ({["B"; "C"]} : gset string))
                   then Q2Qc (9 # 10)
                        / of_nat (size ({["B"; "C"]} : gset string))
                   else 0)))
    ∧ (({["B"; "C"]} : gset string) = ∅ → ∀ p, p ∈ hub_corpus.*1 →
         dict_get p dist = Ret (1 / of_nat (length hub_corpus))).
Proof.
  apply (transition_model_correct hub_corpus "D"%string {["B"; "C"]}
           (Q2Qc (9 # 10))); by_evaluation.
Defined.

Lemma transition_model_distribution_witness :
  ∃ dist,
    transition_model hub_corpus "A"%string (Q2Qc (9 # 10)) = Ret dist
    ∧ dist.*1 = hub_corpus.*1
    ∧ Forall (λ pv, 0 ≤ pv.2) dist ∧ py_sum dist.*2 = 1.
Proof.
  apply (transition_model_distribution hub_corpus "A"%string (Q2Qc (9 # 10)));
    [apply hub_valid|by_evaluation|by vm_compute|by vm_compute].
Defined.

Lemma estimators_return_rank_mappings_witness :
  (∃ out, sample_pagerank 42%Z hub_corpus (Q2Qc (9 # 10)) 20 = Ret out
          ∧ rank_mapping hub_corpus out)
  ∧ (∀ fuel out,
       iterate_pagerank fuel hub_corpus (Q2Qc (9 # 10)) = Ret out →
       rank_mapping hub_corpus out)
  ∧ (Q2Qc (9 # 10) < 1 →
     ∃ fuel out,
       iterate_pagerank fuel hub_corpus (Q2Qc (9 # 10)) = Ret out
       ∧ rank_mapping hub_corpus out).
Proof.
  apply (estimators_return_rank_mappings hub_corpus (Q2Qc (9 # 10)) 42%Z 20);
    [apply hub_valid|by vm_compute|by vm_compute|lia].
Defined.

Lemma iterate_pagerank_terminates_witness :
  ∃ fuel out, iterate_pagerank fuel hub_corpus (Q2Qc (9 # 10)) = Ret out.
Proof.
  apply (iterate_pagerank_terminates hub_corpus (Q2Qc (9 # 10)));
    [apply hub_valid|by vm_compute|by vm_compute].
Defined.

Lemma rerun_movement_bounded_witness :
  ∃ out,
    iterate_pagerank 7 hub_corpus (Q2Qc (9 # 10)) = Ret out
    ∧ (∃ new c, sweep hub_corpus (Q2Qc (9 # 10)) (length hub_corpus) out
                = Ret (new, c)
         ∧ l1_dist hub_corpus new out
           ≤ Q2Qc (9 # 10) * (of_nat (length hub_corpus) * threshold))
    ∧ (Q2Qc (9 # 10) ≤ Q2Qc (99 # 100) →
       ∃ fuel' out', iterate_from fuel' hub_corpus (Q2Qc (9 # 10)) out
                     = Ret out').
Proof.
  destruct (iterate_pagerank 7 hub_corpus (Q2Qc (9 # 10))) as [out| |] eqn:E.
  2,3: by vm_compute in E.
  exists out. split; [done|].
  destruct (rerun_movement_bounded hub_corpus (Q2Qc (9 # 10)) 7 out)
    as (H1 & _ & H3); [apply hub_valid|by vm_compute|by vm_compute|exact E|].
  by split.
Defined.

Lemma estimators_do_not_validate_witness :
  (∃ new c,
     sweep hub_corpus (Q2Qc 2) (length hub_corpus) (uniform hub_corpus)
     = Ret (new, c)
     ∧ new.*1 = hub_corpus.*1
     ∧ ∀ fuel, iterate_pagerank (S fuel) hub_corpus (Q2Qc 2)
               = if c then normalize new
                 else iterate_from fuel hub_corpus (Q2Qc 2) new)
  ∧ (∀ page, page ∈ hub_corpus.*1 →
       ∃ dist, transition_model hub_corpus page (Q2Qc 2) = Ret dist
               ∧ dist.*1 = hub_corpus.*1)
  ∧ (∀ n, (n < 0)%Z →
       sample_pagerank 42%Z hub_corpus (Q2Qc 2) n
       = Ret (tab (λ _, 0) hub_corpus.*1))
  ∧ sample_pagerank 42%Z hub_corpus (Q2Qc 2) 0 = Raise ZeroDivisionError.
Proof.
  apply (estimators_do_not_validate hub_corpus (Q2Qc 2) 42%Z), hub_valid.
Defined.

Lemma single_page_rank_one_witness :
  sample_pagerank 42%Z single_page (Q2Qc (85 # 100)) 10000
  = Ret (("A"%string, 1) :: nil)
  ∧ iterate_pagerank 1 single_page (Q2Qc (85 # 100))
    = Ret (("A"%string, 1) :: nil).
Proof.
  apply (single_page_rank_one "A"%string (Q2Qc (85 # 100)) 42%Z 10000 0). lia.
Defined.

Lemma iterate_pagerank_divisions_safe_witness :
  of_nat (length hub_corpus) ≠ 0
  ∧ (∀ q, of_nat (size (eff_links hub_corpus q)) ≠ 0)
  ∧ (∀ r new c, r.*1 = hub_corpus.*1 →
       sweep hub_corpus (Q2Qc (9 # 10)) (length hub_corpus) r = Ret (new, c) →
       (1 - Q2Qc (9 # 10)) + Q2Qc (9 # 10) * py_sum r.*2 ≤ py_sum new.*2)
  ∧ (∀ fuel out,
       while_not_convergence fuel hub_corpus (Q2Qc (9 # 10))
         (length hub_corpus) (uniform hub_corpus) = Ret out →
       0 < py_sum out.*2)
  ∧ (∀ fuel,
       iterate_pagerank fuel hub_corpus (Q2Qc (9 # 10))
       ≠ Raise ZeroDivisionError).
Proof.
  apply (iterate_pagerank_divisions_safe hub_corpus (Q2Qc (9 # 10)));
    [apply hub_valid|by vm_compute|by vm_compute].
Defined.

(** * Further properties of the code *)

Section CrawlFacts.
Context {K : Type} `{!EqDecision K} {V : Type}.
Implicit Types (d : list (K * V)) (k : K) (v : V).

Lemma dict_get_app_fresh k d d' :
  k ∉ d.*1 → dict_get k (d ++ d') = dict_get k d'.
Proof.
  induction d as [|[k' v'] d IH]; simpl; [done|].
  rewrite not_elem_of_cons. intros [Hne Hk].
  rewrite decide_False by done. by apply IH.
Qed.

Lemma dict_set_app_fresh k v d d' :
  k ∉ d.*1 → dict_set k v (d ++ d') = d ++ dict_set k v d'.
Proof.
  induction d as [|[k' v'] d IH]; simpl; [done|].
  rewrite not_elem_of_cons. intros [Hne Hk].
  rewrite decide_False by done. f_equal. by apply IH.
Qed.

(** Rewriting every value of a dictionary in place, key by key. *)
Lemma update_all (F : list K → V → V) (ks : list K) (pre post : list (K * V)) :
  ks = (pre ++ post).*1 → NoDup ks →
  foldM (λ pages k,
    l ← dict_get k pages;
    Ret (dict_set k (F pages.*1 l) pages))
    (((λ kv, (kv.1, F ks kv.2)) <$> pre) ++ post) post.*1
  = Ret ((λ kv, (kv.1, F ks kv.2)) <$> (pre ++ post)).
Proof.
  set (G := λ kv : K * V, (kv.1, F ks kv.2)).
  revert pre. induction post as [|[k v] post IH]; intros pre Hks Hnd.
  - simpl. by rewrite !app_nil_r.
  - assert ((G <$> pre).*1 = pre.*1) as Hpre
      by (by rewrite <-list_fmap_compose).
    assert (k ∉ (G <$> pre).*1) as Hfresh.
    { rewrite Hpre. rewrite Hks, fmap_app in Hnd.
      apply NoDup_app in Hnd as (_ & Hd & _).
      intros Hin. apply (Hd k Hin). simpl. apply elem_of_cons; by left. }
    assert (((G <$> pre) ++ (k, v) :: post).*1 = ks) as Hkeys.
    { rewrite Hks, !fmap_app. by rewrite Hpre. }
    cbn [fmap list_fmap foldM fst]. rewrite dict_get_app_fresh by done.
    cbn [dict_get]. rewrite decide_True by done. cbn [mbind result_bind].
    rewrite dict_set_app_fresh by done. cbn [dict_set].
    rewrite decide_True by done. rewrite Hkeys.
    replace ((G <$> pre) ++ (k, F ks v) :: post)
      with ((G <$> (pre ++ [(k, v)])) ++ post)
      by (by rewrite fmap_app, <-app_assoc).
    replace (pre ++ (k, v) :: post) with ((pre ++ [(k, v)]) ++ post)
      by (by rewrite <-app_assoc).
    apply IH; [|done]. by rewrite Hks, <-app_assoc.
Qed.
End CrawlFacts.

Section DictSet.
Context {K : Type} `{!EqDecision K} {V : Type}.
Implicit Types (d : list (K * V)) (k : K) (v : V).

Lemma dict_set_keys_elem k k' v d :
  k' ∈ (dict_set k v d).*1 ↔ k' = k ∨ k' ∈ d.*1.
Proof.
  destruct (decide (k ∈ d.*1)) as [Hin|Hnin].
  - rewrite dict_set_keys by done. split; [by right|].
    intros [->|?]; done.
  - rewrite dict_set_fresh, fmap_app, elem_of_app by done. simpl.
    rewrite list_elem_of_singleton. tauto.
Qed.

Lemma dict_set_NoDup k v d : NoDup d.*1 → NoDup (dict_set k v d).*1.
Proof.
  intros Hnd. destruct (decide (k ∈ d.*1)) as [Hin|Hnin].
  - by rewrite dict_set_keys.
  - rewrite dict_set_fresh, fmap_app by done. simpl.
    apply NoDup_app. split_and!; [done| |apply NoDup_singleton].
    intros x Hx ->%list_elem_of_singleton. done.
Qed.

Lemma dict_set_elem k v d k' v' :
  (k', v') ∈ dict_set k v d → (k' = k ∧ v' = v) ∨ (k', v') ∈ d.
Proof.
  induction d as [|[k0 v0] d IH]; simpl.
  - intros [= -> ->]%list_elem_of_singleton. by left.
  - destruct (decide (k = k0)) as [->|Hne].
    + rewrite !elem_of_cons. intros [[= -> ->]|?]; [by left|right; by right].
    + rewrite !elem_of_cons. intros [?|Hin]; [right; by left|].
      destruct (IH Hin) as [?|?]; [by left|right; by right].
Qed.
End DictSet.

Section CrawlProofs.
Variable findall_href : string → list string.
Implicit Types (directory : list (string * string)).

Local Abbreviation extract := (crawl_extract findall_href).

Lemma extract_snoc directory filename contents :
  extract (directory ++ [(filename, contents)])
  = if negb (endswith filename ".html") then extract directory
    else dict_set filename
           (list_to_set (findall_href contents) ∖ {[filename]})
           (extract directory).
Proof. unfold crawl_extract. by rewrite foldl_app. Qed.

Lemma html_files_snoc directory filename contents :
  html_files (directory ++ [(filename, contents)])
  = html_files directory
    ++ (if endswith filename ".html" then [filename] else []).
Proof.
  unfold html_files. rewrite fmap_app, filter_app. f_equal. simpl.
  rewrite filter_cons. destruct (endswith filename ".html").
  - by rewrite decide_True.
  - by rewrite decide_False.
Qed.

(** What the first loop leaves: a dictionary keyed by the pages of the
    directory, in which no page links to itself. *)
Lemma extract_inv directory :
  NoDup (extract directory).*1
  ∧ Forall (λ kl, kl.1 ∉ kl.2) (extract directory)
  ∧ ∀ name, name ∈ (extract directory).*1 ↔ name ∈ html_files directory.
Proof.
  induction directory as [|[filename contents] directory IH] using rev_ind.
  - split_and!; [apply NoDup_nil_2|apply Forall_nil_2|done].
  - destruct IH as (Hnd & Hself & Hkeys).
    rewrite extract_snoc, html_files_snoc.
    destruct (endswith filename ".html"); simpl.
    + split_and!.
      * by apply dict_set_NoDup.
      * apply Forall_forall. intros [k l] Hin.
        apply dict_set_elem in Hin as [[-> ->]|Hin].
        -- simpl. apply not_elem_of_difference. right. by apply elem_of_singleton.
        -- rewrite Forall_forall in Hself. by apply (Hself (k, l)).
      * intros name. rewrite dict_set_keys_elem, elem_of_app, Hkeys.
        rewrite list_elem_of_singleton. tauto.
    + rewrite app_nil_r. done.
Qed.

Lemma restrict_table (pages : list (string * gset string)) :
  NoDup pages.*1 →
  crawl_restrict pages
  = Ret ((λ kl, (kl.1, filter (λ link, link ∈ pages.*1) kl.2)) <$> pages).
Proof.
  intros Hnd. unfold crawl_restrict.
  pose (F := λ (ks : list string) (l : gset string),
               filter (λ link, link ∈ ks) l).
  apply (update_all F pages.*1 [] pages); done.
Qed.

Lemma crawl_restricted directory :
  crawl findall_href directory
  = Ret ((λ kl, (kl.1, filter (λ link, link ∈ html_files directory) kl.2))
           <$> extract directory).
Proof.
  destruct (extract_inv directory) as (Hnd & _ & Hkeys).
  unfold crawl. rewrite restrict_table by done. f_equal.
  apply list_fmap_ext. intros i [k l] _. simpl. f_equal.
  apply set_eq. intros x. rewrite !elem_of_filter. by rewrite Hkeys.
Qed.

(** With distinct file names the first loop appends one entry per page. *)
Lemma extract_table directory :
  NoDup directory.*1 →
  extract directory
  = (λ fc, (fc.1, list_to_set (findall_href fc.2) ∖ {[fc.1]}))
      <$> filter (λ fc, endswith fc.1 ".html" = true) directory.
Proof.
  induction directory as [|[filename contents] directory IH] using rev_ind.
  - done.
  - rewrite fmap_app, NoDup_app. intros (Hnd & Hfresh & _).
    rewrite extract_snoc, filter_app, fmap_app, IH by done.
    rewrite filter_cons. simpl. destruct (endswith filename ".html") eqn:E.
    + rewrite decide_True by done. simpl. apply dict_set_fresh.
      rewrite <-list_fmap_compose. intros Hin.
      apply list_elem_of_fmap in Hin as ([f c] & -> & Hin).
      apply list_elem_of_filter in Hin as [_ Hin]. simpl in *.
      apply (Hfresh f); [|apply elem_of_cons; by left].
      apply list_elem_of_fmap. by exists (f, c).
    + rewrite decide_False by done. simpl. by rewrite app_nil_r.
Qed.

Lemma crawl_is_table directory :
  NoDup directory.*1 →
  crawl findall_href directory = Ret (crawl_table findall_href directory).
Proof.
  intros Hnd. rewrite crawl_restricted, extract_table by done.
  f_equal. unfold crawl_table. by rewrite <-list_fmap_compose.
Qed.

Lemma table_keys {V : Type} (h : string * string → V) directory :
  ((λ fc, (fc.1, h fc))
     <$> filter (λ fc, endswith fc.1 ".html" = true) directory).*1
  = html_files directory.
Proof.
  unfold html_files.
  induction directory as [|[f c] directory IH]; [done|].
  cbn [fmap list_fmap fst]. rewrite !filter_cons. simpl.
  destruct (decide (endswith f ".html" = true)); simpl; [f_equal|]; exact IH.
Qed.

Lemma crawl_table_keys directory :
  (crawl_table findall_href directory).*1 = html_files directory.
Proof. apply table_keys. Qed.
End CrawlProofs.

Lemma Qc_of_Z_le (a b : Z) : Qc_of_Z a ≤ Qc_of_Z b → (a ≤ b)%Z.
Proof. intros H. change (inject_Z a <= inject_Z b)%Q in H. by rewrite Zle_Qle. Qed.

Section Edge.
Context {Page : Type} `{!EqDecision Page, !Countable Page}.
Implicit Types (corpus : list (Page * gset Page)) (r : list (Page * Qc)).
Implicit Types (p q page : Page) (d : Qc).

Lemma dict_get_missing {V : Type} (k : Page) (m : list (Page * V)) :
  k ∉ m.*1 → dict_get k m = Raise KeyError.
Proof.
  induction m as [|[k' v] m IH]; simpl; [done|].
  rewrite not_elem_of_cons. intros [Hne Hk].
  rewrite decide_False by done. by apply IH.
Qed.

Lemma settled_true corpus old new p :
  settled corpus old new = true → p ∈ corpus.*1 →
  Qcabs (rank_of new p - rank_of old p) ≤ threshold.
Proof.
  unfold settled. rewrite forallb_forall. intros Hs Hp.
  apply list_elem_of_In in Hp. by apply Hs, bool_decide_eq_true_1 in Hp.
Qed.

Lemma new_rank_lower corpus d g p :
  0 ≤ d → (∀ q, 0 ≤ g q) →
  (1 - d) / of_nat (length corpus) ≤ new_rank corpus d g p.
Proof.
  intros Hd Hg. unfold new_rank.
  assert (0 ≤ inflow corpus g p).
  { apply qsum_nonneg. intros q _. by apply share_nonneg. }
  generalize dependent (inflow corpus g p).
  generalize ((1 - d) / of_nat (length corpus)). intros b x Hx. qc_arith.
Qed.

Lemma rank_le_total r p :
  NoDup r.*1 → nonneg r → p ∈ r.*1 → rank_of r p ≤ py_sum r.*2.
Proof.
  intros Hnd Hr Hp. rewrite total_qsum by done.
  by apply (qsum_elem_le (rank_of r)).
Qed.

Lemma new_rank_zero_damping corpus g p :
  new_rank corpus 0 g p = 1 / of_nat (length corpus).
Proof. unfold new_rank. unfold Qcdiv. ring. Qed.
End Edge.

Section Further.
Context {Page : Type} `{!EqDecision Page, !Countable Page}.
Implicit Types (corpus : list (Page * gset Page)) (r : list (Page * Qc)).
Implicit Types (p q page : Page) (d : Qc).

(** X5.  [transition_model] is defined exactly on the pages of the corpus:
    for a page that is a key it returns a distribution, for any other page
    the lookup [corpus[page]] raises [KeyError]. *)
Theorem transition_model_defined_iff corpus page d :
  NoDup corpus.*1 →
  (page ∈ corpus.*1 → ∃ dist, transition_model corpus page d = Ret dist)
  ∧ (page ∉ corpus.*1 → transition_model corpus page d = Raise KeyError).
Proof.
  intros Hnd. split.
  - intros Hp. eexists. apply transition_model_tab; [done| |done].
    intros ->. by apply elem_of_nil in Hp.
  - intros Hp. unfold transition_model. by rewrite dict_get_missing.
Qed.

(** X7.  Every rank [iterate_pagerank] returns on a valid graph, with a
    damping factor in [0,1], is at least the teleport share (1-d)/N and at
    most 1. *)
Theorem iterate_pagerank_rank_bounds corpus d fuel out :
  valid_graph corpus → 0 ≤ d → d ≤ 1 →
  iterate_pagerank fuel corpus d = Ret out →
  Forall (λ pv, (1 - d) / of_nat (length corpus) ≤ pv.2 ∧ pv.2 ≤ 1) out.
Proof.
  intros Hv Hd0 Hd1. pose proof Hv as (Hnd & Hne & Hcl).
  rewrite iterate_pagerank_while by done. intros Hw.
  pose proof (while_inv (λ r, good corpus r ∧ nonneg r) corpus d Hv
                (λ r H, proj1 (proj1 H))) as Hi.
  specialize (Hi (λ r H, conj (good_step corpus d r Hv (proj1 H))
                           (step_nonneg corpus d r Hne Hd0 Hd1 (proj2 H)))).
  specialize (Hi fuel (uniform corpus)
                (conj (good_uniform corpus Hv) (uniform_nonneg corpus Hne))).
  rewrite Hw in Hi. destruct Hi as (prev & [Hg Hn] & -> & _).
  destruct (good_step corpus d prev Hv Hg) as [Hk Hs].
  pose proof (step_nonneg corpus d prev Hne Hd0 Hd1 Hn) as Hn'.
  unfold step, tab. apply Forall_fmap, Forall_forall. intros p Hp. simpl.
  split.
  - by apply new_rank_lower.
  - rewrite <-Hs. rewrite <-(rank_of_tab (new_rank corpus d (rank_of prev))
                                 corpus.*1 p) by done.
    apply rank_le_total; [by rewrite Hk|done|by rewrite Hk].
Qed.

(** X8.  What convergence means for the result: on a valid graph and with a
    damping factor in [0,1], the mapping [iterate_pagerank] returns is the
    outcome of a sweep of the loop that set the convergence flag, from a
    mapping with total rank 1 and no negative rank that differs from it by
    at most 0.001 on every page; the final division leaves that sweep's
    outcome unchanged (in exact arithmetic, where the ranks add up to 1). *)
Theorem iterate_pagerank_last_sweep corpus d fuel out :
  valid_graph corpus → 0 ≤ d → d ≤ 1 →
  iterate_pagerank fuel corpus d = Ret out →
  ∃ prev,
    prev.*1 = corpus.*1 ∧ py_sum prev.*2 = 1 ∧ nonneg prev
    ∧ sweep corpus d (length corpus) prev = Ret (out, true)
    ∧ ∀ p, p ∈ corpus.*1 → Qcabs (rank_of out p - rank_of prev p) ≤ threshold.
Proof.
  intros Hv Hd0 Hd1. pose proof Hv as (Hnd & Hne & Hcl).
  rewrite iterate_pagerank_while by done. intros Hw.
  pose proof (while_inv (λ r, good corpus r ∧ nonneg r) corpus d Hv
                (λ r H, proj1 (proj1 H))) as Hi.
  specialize (Hi (λ r H, conj (good_step corpus d r Hv (proj1 H))
                           (step_nonneg corpus d r Hne Hd0 Hd1 (proj2 H)))).
  specialize (Hi fuel (uniform corpus)
                (conj (good_uniform corpus Hv) (uniform_nonneg corpus Hne))).
  rewrite Hw in Hi. destruct Hi as (prev & [[Hk Hs] Hn] & -> & Hset).
  exists prev. split_and!; [done|done|done| |].
  - by rewrite sweep_step, Hset.
  - intros p Hp. by apply (settled_true corpus).
Qed.

(** X9.  With damping factor 0 the links play no part: on a valid graph
    [iterate_pagerank] returns 1/N for every page after a single sweep. *)
Theorem iterate_pagerank_zero_damping corpus fuel :
  valid_graph corpus →
  iterate_pagerank (S fuel) corpus 0
  = Ret (tab (λ _, 1 / of_nat (length corpus)) corpus.*1).
Proof.
  intros Hv. pose proof Hv as (Hnd & Hne & Hcl).
  rewrite iterate_pagerank_while by done.
  rewrite while_unfold by (done || apply uniform_keys).
  assert (step corpus 0 (uniform corpus) = uniform corpus) as ->.
  { apply tab_ext. intros p _. exact (new_rank_zero_damping corpus _ p). }
  by rewrite settled_refl.
Qed.
End Further.

Section FurtherSampling.
Context {Page : Type} `{!EqDecision Page, !Countable Page}.
Context {G : Type} `{!Random G}.
Implicit Types (corpus : list (Page * gset Page)) (g : G) (d : Qc).

(** X6.  The ranks [sample_pagerank] returns are visit frequencies: on a
    valid graph and for n >= 1, every page has an integer count between 0 and
    n, the counts add up to n, and the rank of a page is its count divided by
    n (a value between 0 and 1). *)
Theorem sample_pagerank_frequencies corpus d g n :
  valid_graph corpus → (1 ≤ n)%Z →
  ∃ cnt : Page → Z,
    sample_pagerank g corpus d n
    = Ret (tab (λ p, Qc_of_Z (cnt p) / Qc_of_Z n) corpus.*1)
    ∧ qsum (λ p, Qc_of_Z (cnt p)) corpus.*1 = Qc_of_Z n
    ∧ ∀ p, p ∈ corpus.*1 →
        (0 ≤ cnt p ≤ n)%Z
        ∧ 0 ≤ Qc_of_Z (cnt p) / Qc_of_Z n ∧ Qc_of_Z (cnt p) / Qc_of_Z n ≤ 1.
Proof.
  intros Hv Hn.
  destruct (sample_pagerank_tab corpus d g n Hv) as (cnt & E & Hpos & Hsum);
    [lia|].
  rewrite Z2Nat.id in Hsum by lia. exists cnt. split_and!; [done|done|].
  intros p Hp.
  assert (Qc_of_Z (cnt p) ≤ Qc_of_Z n) as Hle.
  { rewrite <-Hsum. apply (qsum_elem_le (λ p, Qc_of_Z (cnt p))); [|done].
    intros y _. by apply Qc_of_Z_nonneg. }
  assert (0 < Qc_of_Z n) as Hn' by (apply Qc_of_Z_pos; lia).
  assert (0 ≤ Qc_of_Z (cnt p)) as H0 by by apply Qc_of_Z_nonneg.
  split_and!.
  - apply Hpos.
  - by apply Qc_of_Z_le.
  - by apply Qcdiv_nonneg.
  - assert (Qc_of_Z n ≠ 0) as Hne by qc_arith.
    pose proof (Qcmult_div_r (Qc_of_Z (cnt p)) _ Hne) as E'.
    revert E'. generalize (Qc_of_Z (cnt p) / Qc_of_Z n). intros x E'.
    destruct (Qclt_le_dec 1 x) as [Hx|Hx]; [|done]. exfalso.
    revert Hle Hn' E' Hx. generalize (Qc_of_Z (cnt p)) (Qc_of_Z n).
    clear. intros a b Hle Hb E Hx. qc_arith.
Qed.
End FurtherSampling.

Lemma of_nat_le (n m : nat) : (n ≤ m)%nat → of_nat n ≤ of_nat m.
Proof.
  intros H. change (inject_Z (Z.of_nat n) <= inject_Z (Z.of_nat m))%Q.
  rewrite <-Zle_Qle. lia.
Qed.

(** Counting the members of a set among the keys, when the set may have
    members that are not keys. *)
Lemma qsum_members_inter `{Countable K} (S : gset K) (keys : list K) (c : Qc) :
  NoDup keys →
  qsum (λ p, if decide (p ∈ S) then c else 0) keys
  = of_nat (size (S ∩ list_to_set keys)) * c.
Proof.
  intros Hnd.
  rewrite <-(qsum_filter (λ p, p ∈ S) (λ _, c)), qsum_const.
  f_equal. f_equal. unfold size, set_size. simpl.
  apply Permutation_length, NoDup_Permutation.
  - by apply NoDup_filter.
  - apply NoDup_elements.
  - intros x. rewrite list_elem_of_filter, elem_of_elements.
    rewrite elem_of_intersection, elem_of_list_to_set. done.
Qed.

Lemma qsum_members_le `{Countable K} (S : gset K) (keys : list K) (c : Qc) :
  NoDup keys → 0 ≤ c →
  qsum (λ p, if decide (p ∈ S) then c else 0) keys ≤ of_nat (size S) * c.
Proof.
  intros Hnd Hc. rewrite qsum_members_inter by done.
  apply Qcmult_le_compat_r; [|done].
  apply of_nat_le, subseteq_size, intersection_subseteq_l.
Qed.

(** ** Graphs whose links may leave the corpus *)

Section Open.
Context {Page : Type} `{!EqDecision Page, !Countable Page}.
Implicit Types (corpus : list (Page * gset Page)) (r : list (Page * Qc)).
Implicit Types (p q page : Page) (d : Qc) (g : Page → Qc).

Lemma share_total_le corpus g q :
  NoDup corpus.*1 → corpus ≠ [] → 0 ≤ g q →
  qsum (λ p, share corpus g q p) corpus.*1 ≤ g q.
Proof.
  intros Hnd Hne Hg. unfold share.
  pose proof (eff_size_neq_0 corpus q Hne) as Hs.
  assert (0 < of_nat (size (eff_links corpus q))) as Hpos.
  { pose proof (of_nat_nonneg (size (eff_links corpus q))). qc_arith. }
  eapply Qcle_trans.
  - apply qsum_members_le; [done|]. by apply Qcdiv_nonneg.
  - rewrite Qcmult_div_r by done. apply Qcle_refl.
Qed.

Lemma inflow_total_le corpus g :
  NoDup corpus.*1 → corpus ≠ [] → (∀ q, 0 ≤ g q) →
  qsum (inflow corpus g) corpus.*1 ≤ qsum g corpus.*1.
Proof.
  intros Hnd Hne Hg. unfold inflow. rewrite qsum_exchange.
  apply qsum_le. intros q _. by apply share_total_le.
Qed.

Lemma l1_contract_open corpus d r r' :
  NoDup corpus.*1 → corpus ≠ [] → 0 ≤ d →
  l1_dist corpus (step corpus d r) (step corpus d r')
  ≤ d * l1_dist corpus r r'.
Proof.
  intros Hnd Hne Hd. unfold l1_dist at 1.
  apply Qcle_trans with
    (qsum (λ p, d * inflow corpus
                    (λ x, Qcabs (rank_of r x - rank_of r' x)) p) corpus.*1).
  - apply qsum_le. intros p Hp. unfold step. rewrite !rank_of_tab by done.
    unfold new_rank.
    replace ((1 - d) / of_nat (length corpus) + d * inflow corpus (rank_of r) p
             - ((1 - d) / of_nat (length corpus)
                + d * inflow corpus (rank_of r') p))
      with (d * (inflow corpus (rank_of r) p - inflow corpus (rank_of r') p))
      by ring.
    rewrite Qcabs_Qcmult, (Qcabs_pos d) by done.
    rewrite !(Qcmult_comm d). apply Qcmult_le_compat_r; [|done].
    apply inflow_minus_abs.
  - rewrite qsum_scale, !(Qcmult_comm d).
    apply Qcmult_le_compat_r; [|done].
    apply inflow_total_le; [done|done|]. intros q. apply Qcabs_nonneg.
Qed.

Lemma while_terminates_open corpus d :
  NoDup corpus.*1 → corpus ≠ [] → 0 ≤ d →
  ∀ (k : nat) r, r.*1 = corpus.*1 →
    d ^ k * l1_dist corpus (step corpus d r) r ≤ threshold →
    ∃ out, while_not_convergence (S k) corpus d (length corpus) r = Ret out.
Proof.
  intros Hnd Hne Hd.
  induction k as [|k IH]; intros r Hk Hsmall.
  - rewrite while_unfold by done.
    rewrite settled_of_l1; [by eexists|].
    cbn [Qcpower] in Hsmall. by rewrite Qcmult_1_l in Hsmall.
  - rewrite while_unfold by done.
    destruct (settled corpus r (step corpus d r)); [by eexists|].
    apply IH; [apply step_keys|].
    pose proof (l1_contract_open corpus d (step corpus d r) r Hnd Hne Hd)
      as Hc.
    pose proof (Qcpower_pos d k Hd) as He.
    rewrite Qcpower_S in Hsmall. revert Hsmall Hc He.
    generalize (d ^ k) (l1_dist corpus (step corpus d r) r)
      (l1_dist corpus (step corpus d (step corpus d r)) (step corpus d r)).
    intros e B A Hsmall Hc He.
    apply Qcle_trans with (e * (d * B)).
    + rewrite !(Qcmult_comm e). by apply Qcmult_le_compat_r.
    + by replace (e * (d * B)) with (d * e * B) by ring.
Qed.

(** The loop on a dictionary corpus: what it returns is the image by a
    sweep of a mapping satisfying any property that sweeps keep. *)
Lemma while_inv_open (I : list (Page * Qc) → Prop) corpus d :
  NoDup corpus.*1 → corpus ≠ [] →
  (∀ r, I r → r.*1 = corpus.*1) → (∀ r, I r → I (step corpus d r)) →
  ∀ fuel r, I r →
    match while_not_convergence fuel corpus d (length corpus) r with
    | Ret out => ∃ prev, I prev ∧ out = step corpus d prev
    | Raise _ => False
    | OutOfFuel => True
    end.
Proof.
  intros Hnd Hne Hkeys Hstep.
  induction fuel as [|fuel IH]; intros r Hr; [done|].
  rewrite while_unfold by auto.
  destruct (settled corpus r (step corpus d r)) eqn:E.
  - by exists r.
  - apply IH. by apply Hstep.
Qed.

Lemma step_total_pos corpus d r :
  NoDup corpus.*1 → corpus ≠ [] → 0 ≤ d → d < 1 → nonneg r →
  0 < py_sum (step corpus d r).*2.
Proof.
  intros Hnd Hne Hd0 Hd1 Hr. unfold step. rewrite py_sum_tab.
  assert (0 < of_nat (length corpus)) as HN.
  { apply of_nat_pos. destruct corpus; [done|simpl; lia]. }
  apply Qclt_le_trans with (qsum (λ _, (1 - d) / of_nat (length corpus))
                              corpus.*1).
  - rewrite qsum_const, length_fmap, Qcmult_div_r by qc_arith. qc_arith.
  - apply qsum_le. intros p _. by apply new_rank_lower.
Qed.

Lemma normalize_rank_mapping corpus r :
  NoDup corpus.*1 → r.*1 = corpus.*1 → nonneg r → 0 < py_sum r.*2 →
  ∃ out, normalize r = Ret out ∧ rank_mapping corpus out.
Proof.
  intros Hnd Hk Hr Hpos.
  assert (py_sum r.*2 ≠ 0) as Hne by qc_arith.
  rewrite normalize_tab by (by rewrite ?Hk).
  eexists. split; [done|]. split_and!.
  - by rewrite tab_keys.
  - apply Forall_tab_nonneg. intros p _. by apply Qcdiv_nonneg.
  - rewrite py_sum_tab.
    rewrite (qsum_ext _ (λ p, / py_sum r.*2 * rank_of r p))
      by (intros; unfold Qcdiv; ring).
    rewrite qsum_scale, <-total_qsum by (by rewrite Hk). by field.
Qed.

Lemma init_uniform_open corpus :
  NoDup corpus.*1 → corpus ≠ [] →
  dict_comp (λ _, truediv 1 (of_nat (length corpus))) corpus.*1
  = Ret (uniform corpus).
Proof.
  intros Hnd Hne. apply dict_comp_tab; [done|].
  intros k _. apply truediv_Ret, of_nat_neq_0. by destruct corpus.
Qed.

Lemma transition_prob_mass corpus page d :
  NoDup corpus.*1 → corpus ≠ [] →
  qsum (transition_prob corpus page d) corpus.*1
  = if decide (links_of corpus page ≠ ∅)
    then (1 - d)
         + d * (of_nat (size (links_of corpus page ∩ list_to_set corpus.*1))
                / of_nat (size (links_of corpus page)))
    else 1.
Proof.
  intros Hnd Hne.
  assert (of_nat (length corpus) ≠ 0) as HN
    by (apply of_nat_neq_0; by destruct corpus).
  unfold transition_prob.
  destruct (decide (links_of corpus page ≠ ∅)) as [Hl|Hl].
  - rewrite qsum_plus, qsum_const, length_fmap.
    rewrite qsum_members_inter by done.
    apply size_neq_0, of_nat_neq_0 in Hl. by field.
  - rewrite qsum_const, length_fmap. by field.
Qed.

(** X10.  [iterate_pagerank] does not need the links to stay inside the
    corpus.  On any non-empty dictionary corpus, with a damping factor in
    [0,1), it raises nothing, and thanks to the final division what it
    returns has the keys of the corpus, no negative rank and ranks adding up
    to 1 (exactly, in exact arithmetic); with a damping factor of at most
    0.99 it does return, after finitely many sweeps. *)
Theorem iterate_pagerank_open_graph corpus d :
  NoDup corpus.*1 → corpus ≠ [] → 0 ≤ d → d < 1 →
  (d ≤ Q2Qc (99 # 100) → ∃ fuel out, iterate_pagerank fuel corpus d = Ret out)
  ∧ (∀ fuel out,
       iterate_pagerank fuel corpus d = Ret out → rank_mapping corpus out)
  ∧ (∀ fuel e, iterate_pagerank fuel corpus d ≠ Raise e).
Proof.
  intros Hnd Hne Hd0 Hd1. assert (d ≤ 1) as Hd1' by qc_arith.
  set (I := λ r : list (Page * Qc), r.*1 = corpus.*1 ∧ nonneg r).
  assert (I (uniform corpus)) as Hu
    by (split; [apply uniform_keys|by apply uniform_nonneg]).
  assert (∀ r, I r → I (step corpus d r)) as Hstep.
  { intros r [Hk Hr]. split; [apply step_keys|by apply step_nonneg]. }
  assert (∀ fuel,
    match iterate_pagerank fuel corpus d with
    | Ret out => rank_mapping corpus out
    | Raise _ => False
    | OutOfFuel =>
        while_not_convergence fuel corpus d (length corpus) (uniform corpus)
        = OutOfFuel
    end) as Hres.
  { intros fuel. unfold iterate_pagerank, iterate_from.
    rewrite init_uniform_open by done. cbn [mbind result_bind].
    pose proof (while_inv_open I corpus d Hnd Hne (λ r H, proj1 H) Hstep
                  fuel (uniform corpus) Hu) as Hi.
    destruct (while_not_convergence _ _ _ _ _) as [out| |]; [|done|done].
    destruct Hi as (prev & [Hk Hr] & ->). cbn [mbind result_bind].
    destruct (normalize_rank_mapping corpus (step corpus d prev))
      as (out & -> & Hout);
      [done|apply step_keys|by apply step_nonneg|by apply step_total_pos|].
    done. }
  split_and!.
  - intros _.
    destruct (power_small d (l1_dist corpus (step corpus d (uniform corpus))
                               (uniform corpus)) threshold)
      as [k Hsmall]; [done|done|apply l1_dist_nonneg|done|].
    destruct (while_terminates_open corpus d Hnd Hne Hd0 k (uniform corpus)
                (uniform_keys corpus) Hsmall) as [out Hw].
    specialize (Hres (S k)).
    destruct (iterate_pagerank (S k) corpus d) as [out'| |] eqn:E;
      [by exists (S k), out'|done|congruence].
  - intros fuel out E. specialize (Hres fuel). by rewrite E in Hres.
  - intros fuel e E. specialize (Hres fuel). by rewrite E in Hres.
Qed.

(** X11.  The total probability [transition_model] gives out, on any
    non-empty dictionary corpus: 1 for a page without links, and
    (1-d) + d * (number of links that are pages of the corpus) / L for a page
    with L links.  A link that leaves the corpus takes its share d/L with
    it. *)
Theorem transition_model_mass corpus page (links : gset Page) d :
  NoDup corpus.*1 → (page, links) ∈ corpus →
  ∃ dist,
    transition_model corpus page d = Ret dist
    ∧ py_sum dist.*2
      = if decide (links ≠ ∅)
        then (1 - d)
             + d * (of_nat (size (links ∩ list_to_set corpus.*1))
                    / of_nat (size links))
        else 1.
Proof.
  intros Hnd Hin.
  assert (page ∈ corpus.*1) as Hpage.
  { apply list_elem_of_fmap. by exists (page, links). }
  assert (corpus ≠ []) as Hne by (intros ->; by apply elem_of_nil in Hin).
  exists (tab (transition_prob corpus page d) corpus.*1).
  rewrite transition_model_tab, py_sum_tab, transition_prob_mass by done.
  by rewrite (links_of_elem corpus page links).
Qed.
End Open.

(** ** Crawling *)

Section CrawlTheorems.
Variable findall_href : string → list string.
Implicit Types (directory : list (string * string)).

Lemma crawl_valid directory :
  ∃ corpus,
    crawl findall_href directory = Ret corpus
    ∧ NoDup corpus.*1
    ∧ Forall (λ kl, kl.2 ⊆ list_to_set corpus.*1) corpus
    ∧ Forall (λ kl, kl.1 ∉ kl.2) corpus
    ∧ ∀ name, name ∈ corpus.*1 ↔ name ∈ html_files directory.
Proof.
  destruct (extract_inv findall_href directory) as (Hnd & Hself & Hkeys).
  eexists. split; [apply crawl_restricted|].
  set (G := λ kl : string * gset string,
              (kl.1, filter (λ link, link ∈ html_files directory) kl.2)).
  assert ((G <$> crawl_extract findall_href directory).*1
          = (crawl_extract findall_href directory).*1) as Hk
    by (by rewrite <-list_fmap_compose).
  rewrite Hk. split_and!; [done| | |done].
  - apply Forall_fmap, Forall_forall. intros [k l] _. simpl.
    intros x [Hx _]%elem_of_filter. apply elem_of_list_to_set. by apply Hkeys.
  - apply Forall_fmap. eapply Forall_impl; [exact Hself|].
    intros [k l] Hkl. simpl in *. intros [_ ?]%elem_of_filter. done.
Qed.

Lemma crawl_valid_graph directory :
  html_files directory ≠ [] →
  ∃ corpus,
    crawl findall_href directory = Ret corpus ∧ valid_graph corpus
    ∧ ∀ name, name ∈ corpus.*1 ↔ name ∈ html_files directory.
Proof.
  intros Hne. destruct (crawl_valid directory)
    as (corpus & E & Hnd & Hcl & _ & Hkeys).
  exists corpus. split_and!; [done| |done]. split_and!; [done| |done].
  intros ->. destruct (html_files directory) as [|x l]; [done|].
  apply (elem_of_nil x), Hkeys. apply elem_of_cons; by left.
Qed.

Lemma crawl_empty directory :
  html_files directory = [] → crawl findall_href directory = Ret [].
Proof.
  intros He. destruct (extract_inv findall_href directory) as (_ & _ & Hkeys).
  rewrite crawl_restricted.
  destruct (crawl_extract findall_href directory) as [|[k l] pages]; [done|].
  exfalso. apply (elem_of_nil k). rewrite <-He. apply Hkeys.
  apply elem_of_cons; by left.
Qed.

(** X1.  [crawl] on a directory (file names distinct): the corpus has one
    key per file whose name ends in ".html", in the order of the listing,
    and a page links to exactly the targets found in its contents that are
    other pages of the directory. *)
Theorem crawl_pages_and_links directory :
  NoDup directory.*1 →
  ∃ corpus,
    crawl findall_href directory = Ret corpus
    ∧ corpus.*1 = filter (λ name, endswith name ".html" = true) directory.*1
    ∧ ∀ filename contents,
        (filename, contents) ∈ directory → endswith filename ".html" = true →
        ∃ links,
          dict_get filename corpus = Ret links
          ∧ ∀ link, link ∈ links ↔
              link ∈ findall_href contents ∧ link ≠ filename
              ∧ ∃ other, (link, other) ∈ directory
                         ∧ endswith link ".html" = true.
Proof.
  intros Hnd. exists (crawl_table findall_href directory).
  split_and!; [by apply crawl_is_table|apply crawl_table_keys|].
  intros filename contents Hin Hhtml.
  exists (kept_links findall_href directory filename contents). split.
  - apply dict_get_elem.
    + rewrite crawl_table_keys. by apply NoDup_filter.
    + unfold crawl_table. apply list_elem_of_fmap.
      exists (filename, contents). split; [done|].
      by apply list_elem_of_filter.
  - intros link. unfold kept_links, html_files.
    rewrite elem_of_filter, elem_of_difference, elem_of_list_to_set,
      elem_of_singleton, list_elem_of_filter, list_elem_of_fmap.
    split.
    + intros ((Hh & ([l o] & -> & Ho)) & Hf & Hne). simpl in *.
      split_and!; [done|done|]. by exists o.
    + intros (Hf & Hne & (o & Ho & Hh)). split_and!; [done| |done|done].
      by exists (link, o).
Qed.

(** X2.  Every corpus [crawl] returns is a link graph, whatever the files
    contain: distinct keys, every linked page a key, no page linking to
    itself; its keys are the file names ending in ".html".  The directory is
    given with the contents of its files: a file that cannot be opened or
    read makes the program fail before [crawl] returns, and is not part of
    this statement. *)
Theorem crawl_graph_invariant directory corpus :
  crawl findall_href directory = Ret corpus →
  NoDup corpus.*1
  ∧ Forall (λ kl, kl.2 ⊆ list_to_set corpus.*1) corpus
  ∧ Forall (λ kl, kl.1 ∉ kl.2) corpus
  ∧ ∀ name, name ∈ corpus.*1 ↔
      name ∈ directory.*1 ∧ endswith name ".html" = true.
Proof.
  intros Hc.
  destruct (crawl_valid directory) as (corpus' & E & Hnd & Hcl & Hself & Hk).
  rewrite Hc in E. injection E as <-. split_and!; try done.
  intros name. rewrite Hk. unfold html_files. rewrite list_elem_of_filter.
  tauto.
Qed.
End CrawlTheorems.

Section Pipeline.
Context {G : Type} `{!Random G}.
Variable findall_href : string → list string.
Implicit Types (directory : list (string * string)) (g : G).

Lemma DAMPING_range : 0 ≤ DAMPING ∧ DAMPING < 1 ∧ DAMPING ≤ 1.
Proof. by vm_compute. Qed.

Lemma pipeline directory g :
  html_files directory ≠ [] →
  ∃ corpus sampled iterated fuel0,
    crawl findall_href directory = Ret corpus ∧ valid_graph corpus
    ∧ (∀ name, name ∈ corpus.*1 ↔ name ∈ html_files directory)
    ∧ sample_pagerank g corpus DAMPING SAMPLES = Ret sampled
    ∧ rank_mapping corpus sampled
    ∧ (∀ fuel, (fuel0 ≤ fuel)%nat →
         iterate_pagerank fuel corpus DAMPING = Ret iterated)
    ∧ rank_mapping corpus iterated.
Proof.
  intros Hne. destruct DAMPING_range as (Hd0 & Hd1 & Hd1').
  destruct (crawl_valid_graph findall_href directory Hne)
    as (corpus & Hc & Hv & Hk).
  destruct (sample_rank_mapping corpus DAMPING g SAMPLES Hv)
    as (sampled & Hs & Hsm); [done|].
  destruct (iterate_converges corpus DAMPING Hv Hd0 Hd1)
    as (fuel0 & iterated & Hi).
  exists corpus, sampled, iterated, fuel0. split_and!; try done.
  - intros fuel Hle. by apply (iterate_fuel_mono _ _ fuel0).
  - rewrite iterate_pagerank_while in Hi by done.
    by apply (while_rank_mapping corpus DAMPING fuel0).
Qed.

(** X3.  [crawl] delivers what the estimators need.  For a directory with at
    least one ".html" file, the corpus it returns is a valid graph, on which,
    with the damping factor 0.85 and the 10000 samples of [main], both
    estimators return a rank mapping over the pages (no negative rank, ranks
    adding up to 1): [sample_pagerank] always, [iterate_pagerank] after
    finitely many sweeps. *)
Theorem crawl_then_estimators directory g :
  (∃ name contents,
     (name, contents) ∈ directory ∧ endswith name ".html" = true) →
  ∃ corpus,
    crawl findall_href directory = Ret corpus ∧ valid_graph corpus
    ∧ (∃ out, sample_pagerank g corpus DAMPING SAMPLES = Ret out
              ∧ rank_mapping corpus out)
    ∧ (∃ fuel out, iterate_pagerank fuel corpus DAMPING = Ret out
                   ∧ rank_mapping corpus out).
Proof.
  intros (name & contents & Hin & Hh).
  destruct (pipeline directory g)
    as (corpus & sampled & iterated & fuel0 & Hc & Hv & _ & Hs & Hsm & Hi & Him).
  { intros He. apply (elem_of_nil name). rewrite <-He.
    apply list_elem_of_filter. split; [done|].
    apply list_elem_of_fmap. by exists (name, contents). }
  exists corpus. split_and!; [done|done|by exists sampled|].
  exists fuel0, iterated. split; [by apply Hi|done].
Qed.

(** X4.  A directory without ".html" file gives the empty corpus.  On the
    empty corpus [sample_pagerank] raises [IndexError] when it draws its
    first page, whereas [iterate_pagerank] divides nothing and returns the
    empty mapping. *)
Theorem crawl_without_pages directory g d n fuel :
  (∀ name, name ∈ directory.*1 → endswith name ".html" = false) →
  crawl findall_href directory = Ret []
  ∧ sample_pagerank g ([] : list (string * gset string)) d n
    = Raise IndexError
  ∧ iterate_pagerank (S fuel) ([] : list (string * gset string)) d = Ret [].
Proof.
  intros Hno. split_and!; [|done|done].
  apply crawl_empty. unfold html_files.
  induction directory as [|[f c] directory IH]; [done|].
  cbn [fmap list_fmap fst]. rewrite filter_cons.
  rewrite decide_False.
  - apply IH. intros name Hn. apply Hno. apply elem_of_cons; by right.
  - rewrite (Hno f); [done|]. apply elem_of_cons; by left.
Qed.
End Pipeline.

Section Unlinked.
Context {Page : Type} `{!EqDecision Page, !Countable Page}.
Implicit Types (corpus : list (Page * gset Page)) (r : list (Page * Qc)).
Implicit Types (p q page : Page) (d : Qc).

Lemma inflow_unlinked corpus (g : Page → Qc) p :
  Forall (λ ql, ql.2 ≠ ∅ ∧ p ∉ ql.2) corpus → inflow corpus g p = 0.
Proof.
  intros Hall. unfold inflow.
  rewrite (qsum_ext _ (λ _, 0)); [apply qsum_zero|].
  intros q Hq. rewrite Forall_forall in Hall.
  destruct (Hall (q, links_of corpus q)) as [Hl Hp].
  { apply dict_get_Ret_elem. by apply corpus_get. }
  simpl in *. unfold share, eff_links.
  rewrite (decide_True (P := links_of corpus q ≠ ∅)) by done.
  by rewrite decide_False.
Qed.

(** X12.  A page that no page links to, in a valid graph where every page
    has a link, ends with the teleport share (1-d)/N, the least rank
    [iterate_pagerank] gives, for a damping factor in [0,1].  The equality
    is one of exact arithmetic: the sweep computes (1-d)/N + d * 0 and the
    final division is by a sum equal to 1; in floating point that sum is
    rounded, and the division can move the rank by a unit in the last
    place. *)
Theorem iterate_pagerank_unlinked_page corpus d fuel out p :
  valid_graph corpus → 0 ≤ d → d ≤ 1 → p ∈ corpus.*1 →
  Forall (λ ql, ql.2 ≠ ∅ ∧ p ∉ ql.2) corpus →
  iterate_pagerank fuel corpus d = Ret out →
  dict_get p out = Ret ((1 - d) / of_nat (length corpus))
  ∧ Forall (λ pv, (1 - d) / of_nat (length corpus) ≤ pv.2) out.
Proof.
  intros Hv Hd0 Hd1 Hp Hall. pose proof Hv as (Hnd & Hne & Hcl).
  rewrite iterate_pagerank_while by done. intros Hw.
  pose proof (while_inv (λ r, good corpus r ∧ nonneg r) corpus d Hv
                (λ r H, proj1 (proj1 H))) as Hi.
  specialize (Hi (λ r H, conj (good_step corpus d r Hv (proj1 H))
                           (step_nonneg corpus d r Hne Hd0 Hd1 (proj2 H)))).
  specialize (Hi fuel (uniform corpus)
                (conj (good_uniform corpus Hv) (uniform_nonneg corpus Hne))).
  rewrite Hw in Hi. destruct Hi as (prev & [_ Hn] & -> & _).
  split.
  - unfold step. rewrite dict_get_tab by done. f_equal.
    unfold new_rank. rewrite inflow_unlinked by done. ring.
  - unfold step, tab. apply Forall_fmap, Forall_forall. intros q Hq. simpl.
    by apply new_rank_lower.
Qed.
End Unlinked.

(** ** The command line *)

Lemma for_each_print {A : Type} (l : list A) (body : A → prog unit)
    (h : A → printed) (out : list printed) :
  (∀ x out', x ∈ l → body x out' = Fine tt (out' ++ [h x])) →
  for_each l body out = Fine tt (out ++ (h <$> l)).
Proof.
  revert out. induction l as [|x l IH]; intros out Hb.
  - simpl. by rewrite app_nil_r.
  - cbn [for_each fmap list_fmap]. unfold mbind, prog_bind.
    rewrite Hb by (apply elem_of_cons; by left).
    rewrite IH.
    + by rewrite <-app_assoc.
    + intros y out' Hy. apply Hb. apply elem_of_cons; by right.
Qed.

Lemma py_sorted_elem (l : list string) (x : string) :
  x ∈ py_sorted l ↔ x ∈ l.
Proof. unfold py_sorted. by rewrite merge_sort_Permutation. Qed.

Lemma print_ranks_lines (ranks : list (string * Qc)) (out : list printed) :
  print_ranks ranks out = Fine tt (out ++ rank_lines ranks).
Proof.
  unfold print_ranks, rank_lines. apply for_each_print.
  intros page out' Hpage. apply (proj1 (py_sorted_elem _ _)) in Hpage.
  unfold mbind, prog_bind, lift, print. by rewrite ranks_get.
Qed.

Section MainTheorems.
Context {G : Type} `{!Random G}.
Variable findall_href : string → list string.
Variable listdir : string → list (string * string).
Implicit Types (g : G) (argv : list string).

(** X13.  [main] on a directory with at least one ".html" file: given
    enough sweeps it ends normally, having printed the sampling heading, one
    line per page of the corpus in ascending order of the names with the
    rank [sample_pagerank] returned for it (damping 0.85, 10000 samples, the
    random source as [main] received it), the iteration heading, and the same
    pages with the rank [iterate_pagerank] returned (damping 0.85); the ranks
    of each block are a rank mapping over the corpus (none negative, adding
    up to 1). *)
Theorem main_prints_rankings g (program directory : string) :
  (∃ name contents,
     (name, contents) ∈ listdir directory ∧ endswith name ".html" = true) →
  ∃ corpus sampled iterated fuel0,
    crawl findall_href (listdir directory) = Ret corpus
    ∧ sample_pagerank g corpus DAMPING SAMPLES = Ret sampled
    ∧ (∀ fuel, (fuel0 ≤ fuel)%nat →
         iterate_pagerank fuel corpus DAMPING = Ret iterated)
    ∧ rank_mapping corpus sampled ∧ rank_mapping corpus iterated
    ∧ Sorted String.le (py_sorted corpus.*1)
    ∧ py_sorted corpus.*1 ≡ₚ corpus.*1
    ∧ ∀ fuel, (fuel0 ≤ fuel)%nat →
        main findall_href listdir g fuel [program; directory] []
        = Fine tt
            (Heading "PageRank Results from Sampling (n = 10000)"
             :: ((λ page, RankLine page (rank_of sampled page))
                   <$> py_sorted corpus.*1)
             ++ Heading "PageRank Results from Iteration"
             :: ((λ page, RankLine page (rank_of iterated page))
                   <$> py_sorted corpus.*1)).
Proof.
  intros (name & contents & Hin & Hh).
  destruct (pipeline findall_href (listdir directory) g)
    as (corpus & sampled & iterated & fuel0 & Hc & Hv & _ & Hs & Hsm & Hi & Him).
  { intros He. apply (elem_of_nil name). rewrite <-He.
    apply list_elem_of_filter. split; [done|].
    apply list_elem_of_fmap. by exists (name, contents). }
  exists corpus, sampled, iterated, fuel0.
  split_and!; [done|done|done|done|done|apply Sorted_merge_sort, _
              |apply merge_sort_Permutation|].
  intros fuel Hle. unfold main. rewrite decide_False by (simpl; lia).
  unfold mbind, prog_bind, mret, prog_ret, lift, index, print. simpl.
  rewrite Hc, Hs, print_ranks_lines, (Hi fuel Hle), print_ranks_lines.
  unfold rank_lines. destruct Hsm as (-> & _), Him as (-> & _).
  f_equal. simpl. by rewrite <-app_assoc.
Qed.

(** X14.  [main] on a directory without ".html" file: the corpus is empty
    and the run dies of the [IndexError] raised by the first draw of
    [sample_pagerank], before anything is printed. *)
Theorem main_without_pages g (fuel : nat) (program directory : string) :
  (∀ name, name ∈ (listdir directory).*1 → endswith name ".html" = false) →
  main findall_href listdir g fuel [program; directory] []
  = Uncaught IndexError [].
Proof.
  intros Hno. unfold main. rewrite decide_False by (simpl; lia).
  unfold mbind, prog_bind, mret, prog_ret, lift, index. simpl.
  rewrite crawl_empty; [done|].
  unfold html_files.
  induction (listdir directory) as [|[f c] l IH]; [done|].
  cbn [fmap list_fmap fst]. rewrite filter_cons.
  rewrite decide_False.
  - apply IH. intros name Hn. apply Hno. apply elem_of_cons; by right.
  - rewrite (Hno f); [done|]. apply elem_of_cons; by left.
Qed.
End MainTheorems.

(** ** The further properties at concrete inputs *)

Lemma transition_model_defined_iff_witness :
  ("D"%string ∈ hub_corpus.*1 →
   ∃ dist, transition_model hub_corpus "D"%string (Q2Qc (9 # 10)) = Ret dist)
  ∧ ("D"%string ∉ hub_corpus.*1 →
     transition_model hub_corpus "D"%string (Q2Qc (9 # 10)) = Raise KeyError).
Proof.
  apply (transition_model_defined_iff hub_corpus "D"%string (Q2Qc (9 # 10))).
  by_evaluation.
Defined.

Lemma iterate_pagerank_rank_bounds_witness :
  ∃ out,
    iterate_pagerank 7 hub_corpus (Q2Qc (9 # 10)) = Ret out
    ∧ Forall (λ pv, (1 - Q2Qc (9 # 10)) / of_nat (length hub_corpus) ≤ pv.2
                    ∧ pv.2 ≤ 1) out.
Proof.
  destruct (iterate_pagerank 7 hub_corpus (Q2Qc (9 # 10))) as [out| |] eqn:E.
  2,3: by vm_compute in E.
  exists out. split; [done|].
  apply (iterate_pagerank_rank_bounds hub_corpus (Q2Qc (9 # 10)) 7 out);
    [apply hub_valid|by vm_compute|by vm_compute|done].
Defined.

Lemma iterate_pagerank_last_sweep_witness :
  ∃ out prev,
    iterate_pagerank 7 hub_corpus (Q2Qc (9 # 10)) = Ret out
    ∧ prev.*1 = hub_corpus.*1 ∧ py_sum prev.*2 = 1 ∧ nonneg prev
    ∧ sweep hub_corpus (Q2Qc (9 # 10)) (length hub_corpus) prev
      = Ret (out, true)
    ∧ ∀ p, p ∈ hub_corpus.*1 →
        Qcabs (rank_of out p - rank_of prev p) ≤ threshold.
Proof.
  destruct (iterate_pagerank 7 hub_corpus (Q2Qc (9 # 10))) as [out| |] eqn:E.
  2,3: by vm_compute in E.
  assert (0 ≤ Q2Qc (9 # 10)) as Hd0 by by vm_compute.
  assert (Q2Qc (9 # 10) ≤ 1) as Hd1 by by vm_compute.
  destruct (iterate_pagerank_last_sweep hub_corpus (Q2Qc (9 # 10)) 7 out
              hub_valid Hd0 Hd1 E) as (prev & H1 & H2 & H3 & H4 & H5).
  exists out, prev.
  split_and!; [reflexivity|exact H1|exact H2|exact H3|exact H4|exact H5].
Defined.

Lemma iterate_pagerank_zero_damping_witness :
  iterate_pagerank 1 hub_corpus 0
  = Ret (tab (λ _, 1 / of_nat (length hub_corpus)) hub_corpus.*1).
Proof. apply (iterate_pagerank_zero_damping hub_corpus 0), hub_valid. Defined.

Lemma sample_pagerank_frequencies_witness :
  ∃ cnt : string → Z,
    sample_pagerank 42%Z hub_corpus (Q2Qc (9 # 10)) 20
    = Ret (tab (λ p, Qc_of_Z (cnt p) / Qc_of_Z 20) hub_corpus.*1)
    ∧ qsum (λ p, Qc_of_Z (cnt p)) hub_corpus.*1 = Qc_of_Z 20
    ∧ ∀ p, p ∈ hub_corpus.*1 →
        (0 ≤ cnt p ≤ 20)%Z
        ∧ 0 ≤ Qc_of_Z (cnt p) / Qc_of_Z 20
        ∧ Qc_of_Z (cnt p) / Qc_of_Z 20 ≤ 1.
Proof.
  apply (sample_pagerank_frequencies hub_corpus (Q2Qc (9 # 10)) 42%Z 20);
    [apply hub_valid|lia].
Defined.

Lemma iterate_pagerank_open_graph_witness :
  (Q2Qc (1 # 2) ≤ Q2Qc (99 # 100) →
   ∃ fuel out, iterate_pagerank fuel open_corpus (Q2Qc (1 # 2)) = Ret out)
  ∧ (∀ fuel out,
       iterate_pagerank fuel open_corpus (Q2Qc (1 # 2)) = Ret out →
       rank_mapping open_corpus out)
  ∧ (∀ fuel e, iterate_pagerank fuel open_corpus (Q2Qc (1 # 2)) ≠ Raise e).
Proof.
  apply (iterate_pagerank_open_graph open_corpus (Q2Qc (1 # 2)));
    [by_evaluation|done|by vm_compute|by vm_compute].
Defined.

Lemma transition_model_mass_witness :
  ∃ dist,
    transition_model open_corpus "A"%string (Q2Qc (1 # 2)) = Ret dist
    ∧ py_sum dist.*2
      = if decide (({["B"; "X"]} : gset string) ≠ ∅)
        then (1 - Q2Qc (1 # 2))
             + Q2Qc (1 # 2)
               * (of_nat (size (({["B"; "X"]} : gset string)
                                ∩ list_to_set open_corpus.*1))
                  / of_nat (size ({["B"; "X"]} : gset string)))
        else 1.
Proof.
  apply (transition_model_mass open_corpus "A"%string {["B"; "X"]}
           (Q2Qc (1 # 2))); by_evaluation.
Defined.

Lemma iterate_pagerank_unlinked_page_witness :
  ∃ out,
    iterate_pagerank 20 swap_corpus (Q2Qc (1 # 2)) = Ret out
    ∧ dict_get "C"%string out
      = Ret ((1 - Q2Qc (1 # 2)) / of_nat (length swap_corpus))
    ∧ Forall (λ pv, (1 - Q2Qc (1 # 2)) / of_nat (length swap_corpus) ≤ pv.2)
        out.
Proof.
  destruct (iterate_pagerank 20 swap_corpus (Q2Qc (1 # 2))) as [out| |] eqn:E.
  2,3: by vm_compute in E.
  exists out. split; [done|].
  apply (iterate_pagerank_unlinked_page swap_corpus (Q2Qc (1 # 2)) 20 out);
    [apply swap_valid|by vm_compute|by vm_compute|by_evaluation|by_evaluation
    |exact E].
Defined.

Lemma crawl_pages_and_links_witness :
  ∃ corpus,
    crawl String.words toy_directory = Ret corpus
    ∧ corpus.*1
      = filter (λ name, endswith name ".html" = true) toy_directory.*1
    ∧ ∀ filename contents,
        (filename, contents) ∈ toy_directory →
        endswith filename ".html" = true →
        ∃ links,
          dict_get filename corpus = Ret links
          ∧ ∀ link, link ∈ links ↔
              link ∈ String.words contents ∧ link ≠ filename
              ∧ ∃ other, (link, other) ∈ toy_directory
                         ∧ endswith link ".html" = true.
Proof.
  apply (crawl_pages_and_links String.words toy_directory). by_evaluation.
Defined.

Lemma crawl_graph_invariant_witness :
  ∃ corpus,
    crawl String.words toy_directory = Ret corpus
    ∧ NoDup corpus.*1
    ∧ Forall (λ kl, kl.2 ⊆ list_to_set corpus.*1) corpus
    ∧ Forall (λ kl, kl.1 ∉ kl.2) corpus
    ∧ ∀ name, name ∈ corpus.*1 ↔
        name ∈ toy_directory.*1 ∧ endswith name ".html" = true.
Proof.
  assert (crawl String.words toy_directory
          = Ret (crawl_table String.words toy_directory)) as E
    by (apply crawl_is_table; by_evaluation).
  exists (crawl_table String.words toy_directory). split; [exact E|].
  exact (crawl_graph_invariant String.words toy_directory _ E).
Defined.

Lemma crawl_then_estimators_witness :
  ∃ corpus,
    crawl String.words toy_directory = Ret corpus ∧ valid_graph corpus
    ∧ (∃ out, sample_pagerank 42%Z corpus DAMPING SAMPLES = Ret out
              ∧ rank_mapping corpus out)
    ∧ (∃ fuel out, iterate_pagerank fuel corpus DAMPING = Ret out
                   ∧ rank_mapping corpus out).
Proof.
  apply (crawl_then_estimators String.words toy_directory 42%Z).
  exists "1.html"%string, "2.html 3.html"%string. split; by_evaluation.
Defined.

Lemma crawl_without_pages_witness :
  crawl String.words (("notes.txt", "1.html") :: nil)%string = Ret []
  ∧ sample_pagerank 42%Z ([] : list (string * gset string)) DAMPING SAMPLES
    = Raise IndexError
  ∧ iterate_pagerank 1 ([] : list (string * gset string)) DAMPING = Ret [].
Proof.
  apply (crawl_without_pages String.words
           (("notes.txt", "1.html") :: nil)%string 42%Z DAMPING SAMPLES 0).
  intros name ->%list_elem_of_singleton. by vm_compute.
Defined.

Lemma main_prints_rankings_witness :
  ∃ corpus sampled iterated fuel0,
    crawl String.words toy_directory = Ret corpus
    ∧ sample_pagerank 42%Z corpus DAMPING SAMPLES = Ret sampled
    ∧ (∀ fuel, (fuel0 ≤ fuel)%nat →
         iterate_pagerank fuel corpus DAMPING = Ret iterated)
    ∧ rank_mapping corpus sampled ∧ rank_mapping corpus iterated
    ∧ Sorted String.le (py_sorted corpus.*1)
    ∧ py_sorted corpus.*1 ≡ₚ corpus.*1
    ∧ ∀ fuel, (fuel0 ≤ fuel)%nat →
        main String.words (λ _, toy_directory) 42%Z fuel
          ["pagerank.py"; "corpus0"]%string []
        = Fine tt
            (Heading "PageRank Results from Sampling (n = 10000)"
             :: ((λ page, RankLine page (rank_of sampled page))
                   <$> py_sorted corpus.*1)
             ++ Heading "PageRank Results from Iteration"
             :: ((λ page, RankLine page (rank_of iterated page))
                   <$> py_sorted corpus.*1)).
Proof.
  apply (main_prints_rankings String.words (λ _, toy_directory) 42%Z
           "pagerank.py"%string "corpus0"%string).
  exists "1.html"%string, "2.html 3.html"%string. split; by_evaluation.
Defined.

Lemma main_without_pages_witness :
  main String.words (λ _, (("notes.txt", "1.html") :: nil)%string) 42%Z 5
    ["pagerank.py"; "corpus0"]%string []
  = Uncaught IndexError [].
Proof.
  apply (main_without_pages String.words
           (λ _, (("notes.txt", "1.html") :: nil)%string) 42%Z 5
           "pagerank.py"%string "corpus0"%string).
  intros name ->%list_elem_of_singleton. by vm_compute.
Defined.
